(** * Earliest-deadline-first charging-rate scheduling

    A shallow embedding of [EarliestDeadlineFirstAlgo] from
    [tutorials/lesson2_implementing_a_custom_algorithm.ipynb] and the
    properties of its [schedule] method.

    Modelling choices.
    - Charging rates, the increment and departure times are Python numbers;
      they are modelled as exact integers ([Z]).
    - The schedule is a Python [dict] from station id to a list of rates: a
      [gmap string (list Z)].
    - [self.interface] is a handle on the simulator.  Its two methods are
      pure functions here; every call made through the handle is recorded,
      in order, in the [calls] log of the [World].
    - The caller's list [active_evs] lives in the [World] as well, so that
      what [schedule] does to it can be stated.
    - The [while] loop may run forever; it is given a fuel budget (a bound on
      the iterations of one loop) and [OutOfFuel] is the outcome of a loop
      that has not finished within it. *)

From Stdlib Require Import ZArith Lia List Sorted Permutation.
From stdpp Require Import base strings gmap list sorting.

Open Scope Z_scope.

(** ** Data model *)

Abbreviation Schedule := (gmap string (list Z)).

(** The part of [self.interface] the algorithm uses. *)
Record Interface := {
  max_pilot_signal : string → Z;
  is_feasible : Schedule → Z → bool
}.

(** A call made through [self.interface]. *)
Inductive call :=
| CallMaxPilotSignal (sid : string)
| CallIsFeasible (sch : Schedule) (t : Z).

(** Exceptions of the dict and list accesses. *)
Inductive exn :=
| KeyError (k : string)
| IndexError.

(** The algorithm instance: the attributes set by [__init__], and the
    interface handle the base class attaches on registration. *)
Record EarliestDeadlineFirstAlgo := {
  interface : Interface;
  _increment : Z;
  max_recompute : Z
}.

(** [__init__(self, increment=1)] *)
Definition default_increment : Z := 1.

Definition __init__ (iface : Interface) (increment : Z) : EarliestDeadlineFirstAlgo :=
  {| interface := iface; _increment := increment; max_recompute := 1 |}.

(** [sorted(l, key=key)]: Python's built-in sort is stable and compares keys
    with [<] only.  It is modelled by a stable insertion sort. *)
Section Sorted.
Context {A : Type} (key : A → Z).

Fixpoint insert_sorted (x : A) (l : list A) : list A :=
  match l with
  | [] => [x]
  | y :: l' => if key y <? key x then y :: insert_sorted x l' else x :: y :: l'
  end.

Definition sorted (l : list A) : list A := foldr insert_sorted [] l.
End Sorted.

(** What outlives one call of [schedule]: the caller's list of EV objects and
    the log of the calls made through the interface. *)
Record World (EV : Type) := {
  active_evs : list EV;
  calls : list call
}.
Arguments active_evs {EV} _.
Arguments calls {EV} _.

Inductive outcome (EV A : Type) :=
| Done (a : A) (w : World EV)
| Raised (e : exn) (w : World EV)
| OutOfFuel.
Arguments Done {EV A} a w.
Arguments Raised {EV A} e w.
Arguments OutOfFuel {EV A}.

Section EDF.
Context {EV : Type}.
(** The two attributes of an EV object that the algorithm reads. *)
Variable station_id : EV → string.
Variable estimated_departure : EV → Z.

(** ** Effects *)

Definition M (A : Type) : Type := World EV → outcome EV A.

Definition ret {A} (a : A) : M A := λ w, Done a w.

Definition bind {A B} (m : M A) (k : A → M B) : M B :=
  λ w, match m w with
       | Done a w' => k a w'
       | Raised e w' => Raised e w'
       | OutOfFuel => OutOfFuel
       end.

Definition raise {A} (e : exn) : M A := λ w, Raised e w.

Local Notation "'let!' x ':=' m 'in' k" := (bind m (λ x, k))
  (at level 10, x name, m at level 100, k at level 200).

Definition log (c : call) (w : World EV) : World EV :=
  {| active_evs := active_evs w; calls := calls w ++ [c] |}.

Definition read_active_evs : M (list EV) := λ w, Done (active_evs w) w.

Definition call_max_pilot_signal (self : EarliestDeadlineFirstAlgo) (sid : string) : M Z :=
  λ w, Done (max_pilot_signal (interface self) sid) (log (CallMaxPilotSignal sid) w).

Definition call_is_feasible (self : EarliestDeadlineFirstAlgo) (sch : Schedule) (t : Z) : M bool :=
  λ w, Done (is_feasible (interface self) sch t) (log (CallIsFeasible sch t) w).

(** [d[k]] *)
Definition dict_get (d : Schedule) (k : string) : M (list Z) :=
  match d !! k with
  | Some l => ret l
  | None => raise (KeyError k)
  end.

(** [l[0]] *)
Definition list_get0 (l : list Z) : M Z :=
  match l with
  | x :: _ => ret x
  | [] => raise IndexError
  end.

(** ** The algorithm *)

(** [{ev.station_id: [0] for ev in active_evs}] *)
Definition init_schedule (evs : list EV) : Schedule :=
  foldl (λ d ev, <[station_id ev := [0]]> d) ∅ evs.

(** [schedule[sid][0] -= increment]: the list stored under [sid] is updated
    in place at index 0. *)
Definition decrement (self : EarliestDeadlineFirstAlgo) (sid : string) (schedule : Schedule)
  : M Schedule :=
  let! l := dict_get schedule sid in
  let! x := list_get0 l in
  ret (<[sid := <[0%nat := x - _increment self]> l]> schedule).

(** The [while not self.interface.is_feasible(schedule, 0)] loop run for the
    station [sid]; [fuel] bounds the number of evaluations of its
    condition. *)
Fixpoint while_loop (fuel : nat) (self : EarliestDeadlineFirstAlgo) (sid : string)
    (schedule : Schedule) : M Schedule :=
  match fuel with
  | O => λ _, OutOfFuel
  | S fuel' =>
      let! ok := call_is_feasible self schedule 0 in
      if ok then ret schedule
      else
        let! schedule := decrement self sid schedule in
        let! l := dict_get schedule sid in
        let! x := list_get0 l in
        if x <? 0 then ret (<[sid := [0]]> schedule)
        else while_loop fuel' self sid schedule
  end.

(** The body of [for ev in sorted_evs]. *)
Definition loop_body (fuel : nat) (self : EarliestDeadlineFirstAlgo) (ev : EV)
    (schedule : Schedule) : M Schedule :=
  let! m := call_max_pilot_signal self (station_id ev) in
  while_loop fuel self (station_id ev) (<[station_id ev := [m]]> schedule).

Fixpoint for_loop (fuel : nat) (self : EarliestDeadlineFirstAlgo) (evs : list EV)
    (schedule : Schedule) : M Schedule :=
  match evs with
  | [] => ret schedule
  | ev :: rest =>
      let! schedule := loop_body fuel self ev schedule in
      for_loop fuel self rest schedule
  end.

Definition sorted_evs (evs : list EV) : list EV := sorted estimated_departure evs.

(** [schedule(self, active_evs)], the list [active_evs] being the one held
    by the world. *)
Definition schedule (fuel : nat) (self : EarliestDeadlineFirstAlgo) : M Schedule :=
  let! evs := read_active_evs in
  for_loop fuel self (sorted_evs evs) (init_schedule evs).

(** ** Notions the statements are written with *)

(** The call [schedule(active_evs)] made in world [w] returns [sch] and
    leaves the world [w']. *)
Definition returns (self : EarliestDeadlineFirstAlgo) (w : World EV)
    (sch : Schedule) (w' : World EV) : Prop :=
  ∃ fuel, schedule fuel self w = Done sch w'.

(** One iteration of the [for] loop: the EV [it_ev] is processed after the
    EVs [it_pre] and before the EVs [it_post]; the iteration starts with the
    partial schedule [sch_before] and ends with [sch_after]. *)
Record iteration := {
  it_pre : list EV;
  it_ev : EV;
  it_post : list EV;
  sch_before : Schedule;
  w_before : World EV;
  sch_after : Schedule;
  w_after : World EV
}.

(** [it] is an iteration of the call that takes [w] to the result [sch] and
    the world [w']. *)
Definition iteration_of (self : EarliestDeadlineFirstAlgo) (w : World EV)
    (sch : Schedule) (w' : World EV) (it : iteration) : Prop :=
  ∃ fuel,
    sorted_evs (active_evs w) = it_pre it ++ it_ev it :: it_post it ∧
    for_loop fuel self (it_pre it) (init_schedule (active_evs w)) w
      = Done (sch_before it) (w_before it) ∧
    loop_body fuel self (it_ev it) (sch_before it) (w_before it)
      = Done (sch_after it) (w_after it) ∧
    for_loop fuel self (it_post it) (sch_after it) (w_after it) = Done sch w'.

(** The interface calls made during an iteration. *)
Definition calls_of (it : iteration) : list call :=
  drop (length (calls (w_before it))) (calls (w_after it)).

End EDF.

(** The schedules submitted to the feasibility oracle, in order. *)
Fixpoint oracle_calls (cs : list call) : list Schedule :=
  match cs with
  | [] => []
  | CallIsFeasible sch _ :: cs' => sch :: oracle_calls cs'
  | CallMaxPilotSignal _ :: cs' => oracle_calls cs'
  end.

(** The stations whose pilot-signal ceiling was asked for, in order. *)
Fixpoint pilot_calls (cs : list call) : list string :=
  match cs with
  | [] => []
  | CallMaxPilotSignal sid :: cs' => sid :: pilot_calls cs'
  | CallIsFeasible _ _ :: cs' => pilot_calls cs'
  end.

(** The rates [r], [r - inc], ... tested by [n] evaluations of the loop
    condition. *)
Fixpoint tested_rates (r inc : Z) (n : nat) : list Z :=
  match n with
  | O => []
  | S n' => r :: tested_rates (r - inc) inc n'
  end.

(** The monotonicity assumption on the oracle: lowering the rate of one
    station, down to 0, keeps a feasible schedule feasible. *)
Definition monotone (iface : Interface) : Prop :=
  ∀ (sch : Schedule) (sid : string) (r r' : Z),
    0 ≤ r' ≤ r →
    is_feasible iface (<[sid := [r]]> sch) 0 = true →
    is_feasible iface (<[sid := [r']]> sch) 0 = true.



(** The schedule in which every station of [active_evs] draws its ceiling:
    [{ev.station_id: [max_pilot_signal(ev.station_id)] for ev in active_evs}]. *)
Definition ceiling_schedule {EV : Type} (station_id : EV → string)
    (self : EarliestDeadlineFirstAlgo) (evs : list EV) : Schedule :=
  foldl (λ d ev, <[station_id ev := [max_pilot_signal (interface self) (station_id ev)]]> d)
    ∅ evs.


(** An interface call is well formed for the stations [D]: an oracle call is
    made for offset 0 on a schedule whose keys are [D], each holding one
    rate. *)
Definition well_formed_call (D : gset string) (c : call) : Prop :=
  match c with
  | CallMaxPilotSignal s => s ∈ D
  | CallIsFeasible q t =>
      t = 0 ∧ dom q = D ∧ ∀ s l, q !! s = Some l → length l = 1%nat
  end.

(** What a finished search for station [sid] has done, starting from rate [r]
    in the partial schedule [sch0]: [k] rates were rejected and lowered, then
    the loop ended on an accepted rate or on the clamp, leaving [sch']. *)
Definition search_end (self : EarliestDeadlineFirstAlgo) (sid : string) (sch0 : Schedule)
    (r : Z) (k : nat) (sch' : Schedule) : Prop :=
  let inc := _increment self in
  let feasible (x : Z) := is_feasible (interface self) (<[sid := [x]]> sch0) 0 in
  (∀ i : nat, (i < k)%nat →
     feasible (r - Z.of_nat i * inc) = false ∧ 0 ≤ r - (Z.of_nat i + 1) * inc) ∧
  ((feasible (r - Z.of_nat k * inc) = true ∧ sch' = <[sid := [r - Z.of_nat k * inc]]> sch0) ∨
   (feasible (r - Z.of_nat k * inc) = false ∧ r - (Z.of_nat k + 1) * inc < 0 ∧
    sch' = <[sid := [0]]> sch0)).

(** ** Concrete instances *)

Module Demo.

(** An EV object: the two attributes read by the algorithm, and one it
    never looks at. *)
Record EV := {
  station_id : string;
  estimated_departure : Z;
  session_id : nat
}.

Definition world (evs : list EV) : World EV :=
  {| active_evs := evs; calls := [] |}.

(** The rate of the current period, summed over the stations. *)
Definition total_rate (sch : Schedule) : Z :=
  map_fold (λ _ l acc, hd 0 l + acc) 0 sch.

(** The example network of the specification: station A may draw 32,
    station B 16, and both together at most 40. *)
Definition shared_limit : Interface := {|
  max_pilot_signal := λ sid, if String.eqb sid "A" then 32 else 16;
  is_feasible := λ sch _, total_rate sch <=? 40
|}.

Definition ev_A : EV := {| station_id := "A"; estimated_departure := 3; session_id := 7 |}.
Definition ev_B : EV := {| station_id := "B"; estimated_departure := 1; session_id := 8 |}.

(** An oracle that accepts nothing, not even the all-zero schedule; every
    station may draw [m]. *)
Definition reject_all (m : Z) : Interface := {|
  max_pilot_signal := λ _, m;
  is_feasible := λ _ _, false
|}.

(** An oracle that accepts nothing but the all-zero schedule: it is
    monotone and keeps the zero baseline. *)
Definition only_zero (m : Z) : Interface := {|
  max_pilot_signal := λ _, m;
  is_feasible := λ sch _, total_rate sch <=? 0
|}.

Definition run (iface : Interface) (inc : Z) (fuel : nat) (evs : list EV)
  : outcome EV Schedule :=
  schedule station_id estimated_departure fuel (__init__ iface inc) (world evs).

(** The same two EVs under other session numbers. *)
Definition ev_A' : EV := {| station_id := "A"; estimated_departure := 3; session_id := 21 |}.
Definition ev_B' : EV := {| station_id := "B"; estimated_departure := 1; session_id := 22 |}.

(** A third EV, leaving together with [ev_A] and listed before it. *)
Definition ev_C : EV := {| station_id := "C"; estimated_departure := 3; session_id := 9 |}.

(** A world in which the interface has been called before. *)
Definition later_world (evs : list EV) : World EV :=
  {| active_evs := evs; calls := [CallMaxPilotSignal "B"] |}.

(** The only iteration of a call for the list [[ev_A]]: the test of
    [first_rate] is the only oracle call, and the iteration leaves
    [last_rate]. *)
Definition single_iteration (first_rate last_rate : Z) : @iteration EV := {|
  it_pre := [];
  it_ev := ev_A;
  it_post := [];
  sch_before := {["A" := [0]]};
  w_before := world [ev_A];
  sch_after := {["A" := [last_rate]]};
  w_after := {| active_evs := [ev_A];
                calls := [CallMaxPilotSignal "A";
                          CallIsFeasible {["A" := [first_rate]]} 0] |}
|}.

(** The second iteration of a call for [[ev_A; ev_B]] in the example
    network with increment 8: [ev_B] has been given 16, and [ev_A] is tried
    at 32 and then at 24. *)
Definition second_iteration : @iteration EV := {|
  it_pre := [ev_B];
  it_ev := ev_A;
  it_post := [];
  sch_before := {["A" := [0]; "B" := [16]]};
  w_before := {| active_evs := [ev_A; ev_B];
                 calls := [CallMaxPilotSignal "B";
                           CallIsFeasible {["A" := [0]; "B" := [16]]} 0] |};
  sch_after := {["A" := [24]; "B" := [16]]};
  w_after := {| active_evs := [ev_A; ev_B];
                calls := [CallMaxPilotSignal "B";
                          CallIsFeasible {["A" := [0]; "B" := [16]]} 0;
                          CallMaxPilotSignal "A";
                          CallIsFeasible {["A" := [32]; "B" := [16]]} 0;
                          CallIsFeasible {["A" := [24]; "B" := [16]]} 0] |}
|}.

End Demo.

(** ** The sort *)

Section SortedFacts.
Context {A : Type} (key : A → Z).

Lemma insert_sorted_perm (x : A) (l : list A) :
  Permutation (insert_sorted key x l) (x :: l).
Proof.
  induction l as [|y l IH]; simpl; [reflexivity|].
  destruct (key y <? key x); [|reflexivity].
  rewrite IH. apply perm_swap.
Qed.

Lemma sorted_perm (l : list A) : Permutation (sorted key l) l.
Proof.
  induction l as [|x l IH]; simpl; [reflexivity|].
  rewrite insert_sorted_perm. by constructor.
Qed.

Lemma insert_sorted_ordered (x : A) (l : list A) :
  StronglySorted (λ a b, key a ≤ key b) l →
  StronglySorted (λ a b, key a ≤ key b) (insert_sorted key x l).
Proof.
  induction 1 as [|y l Hl IH Hy]; simpl.
  - repeat constructor.
  - destruct (Z.ltb_spec (key y) (key x)) as [Hlt|Hge].
    + constructor; [exact IH|].
      rewrite (insert_sorted_perm x l). constructor; [lia|exact Hy].
    + constructor; [by constructor|].
      constructor; [lia|].
      eapply Forall_impl; [exact Hy|]. simpl. intros; lia.
Qed.

Lemma sorted_ordered (l : list A) :
  StronglySorted (λ a b, key a ≤ key b) (sorted key l).
Proof.
  induction l as [|x l IH]; simpl; [constructor|].
  by apply insert_sorted_ordered.
Qed.

(** Stability: the elements of any one key keep their relative order. *)
Lemma insert_sorted_stable (d : Z) (x : A) (l : list A) :
  StronglySorted (λ a b, key a ≤ key b) l →
  filter (λ a, key a = d) (insert_sorted key x l)
  = filter (λ a, key a = d) (x :: l).
Proof.
  induction 1 as [|y l Hl IH Hy]; simpl; [done|].
  destruct (Z.ltb_spec (key y) (key x)) as [Hlt|Hge]; [|done].
  rewrite filter_cons, IH, !filter_cons.
  destruct (decide (key y = d)) as [Hyd|Hyd]; [|done].
  destruct (decide (key x = d)) as [Hxd|Hxd]; [lia|done].
Qed.

Lemma sorted_stable (d : Z) (l : list A) :
  filter (λ a, key a = d) (sorted key l) = filter (λ a, key a = d) l.
Proof.
  induction l as [|x l IH]; simpl; [done|].
  rewrite insert_sorted_stable by apply sorted_ordered.
  by rewrite !filter_cons, IH.
Qed.

(** The sort looks at the keys only. *)
Lemma insert_sorted_Forall2 {B : Type} (key' : B → Z) (R : A → B → Prop)
    (x : A) (y : B) (l : list A) (l' : list B) :
  (∀ a b, R a b → key a = key' b) →
  R x y → Forall2 R l l' →
  Forall2 R (insert_sorted key x l) (insert_sorted key' y l').
Proof.
  intros HR Hxy Hl. induction Hl as [|a b l l' Hab Hl IH]; simpl.
  - by repeat constructor.
  - rewrite (HR _ _ Hab), (HR _ _ Hxy).
    destruct (key' b <? key' y); by repeat constructor.
Qed.

Lemma sorted_Forall2 {B : Type} (key' : B → Z) (R : A → B → Prop)
    (l : list A) (l' : list B) :
  (∀ a b, R a b → key a = key' b) →
  Forall2 R l l' →
  Forall2 R (sorted key l) (sorted key' l').
Proof.
  intros HR Hl. induction Hl; simpl; [constructor|].
  by apply insert_sorted_Forall2.
Qed.
End SortedFacts.

(** ** The rate search *)

Section SearchFacts.
Context {EV : Type}.
Variable self : EarliestDeadlineFirstAlgo.
Variable sid : string.
Variable sch0 : Schedule.

Local Abbreviation inc := (_increment self).
Local Abbreviation feasible r := (is_feasible (interface self) (<[sid := [r]]> sch0) 0).
Local Abbreviation query r := (CallIsFeasible (<[sid := [r]]> sch0) 0).

(** One turn of the loop, the rate of [sid] being [r]. *)
Lemma while_loop_S (fuel : nat) (r : Z) (w : World EV) :
  while_loop (S fuel) self sid (<[sid := [r]]> sch0) w =
    if feasible r then Done (<[sid := [r]]> sch0) (log (query r) w)
    else if r - inc <? 0 then Done (<[sid := [0]]> sch0) (log (query r) w)
    else while_loop fuel self sid (<[sid := [r - inc]]> sch0) (log (query r) w).
Proof.
  simpl. unfold bind at 1. unfold call_is_feasible.
  destruct (feasible r); [reflexivity|].
  unfold decrement, bind, dict_get. rewrite lookup_insert_eq. simpl.
  rewrite insert_insert_eq, lookup_insert_eq. simpl.
  rewrite insert_insert_eq. by destruct (r - inc <? 0).
Qed.

Lemma while_loop_spec (fuel : nat) (r : Z) (w : World EV) (sch' : Schedule) (w' : World EV) :
  while_loop fuel self sid (<[sid := [r]]> sch0) w = Done sch' w' →
  ∃ k : nat, (k < fuel)%nat ∧
    active_evs w' = active_evs w ∧
    calls w' = calls w ++ map (λ x, query x) (tested_rates r inc (S k)) ∧
    search_end self sid sch0 r k sch'.
Proof.
  revert r w. induction fuel as [|fuel IH]; intros r w; [done|].
  rewrite while_loop_S.
  destruct (feasible r) eqn:Hr; [|destruct (Z.ltb_spec (r - inc) 0) as [Hneg|Hpos]].
  - intros [= <- <-]. exists O. split; [lia|]. split; [done|]. split; [done|].
    split; [intros; lia|]. left. by replace (r - Z.of_nat 0 * inc) with r by lia.
  - intros [= <- <-]. exists O. split; [lia|]. split; [done|]. split; [done|].
    split; [intros; lia|]. right.
    replace (r - Z.of_nat 0 * inc) with r by lia. repeat split; [done|lia].
  - intros Hrun. destruct (IH _ _ Hrun) as (k & Hk & Hevs & Hcalls & Hall & Hend).
    exists (S k). split; [lia|]. split; [done|]. split.
    { rewrite Hcalls. simpl. by rewrite <- app_assoc. }
    split.
    + intros [|i] Hi.
      * replace (r - Z.of_nat 0 * inc) with r by lia. split; [done|lia].
      * destruct (Hall i ltac:(lia)) as [Hf Hge].
        replace (r - Z.of_nat (S i) * inc) with (r - inc - Z.of_nat i * inc) by lia.
        split; [done|lia].
    + replace (r - Z.of_nat (S k) * inc) with (r - inc - Z.of_nat k * inc) by lia.
      replace (r - (Z.of_nat (S k) + 1) * inc)
        with (r - inc - (Z.of_nat k + 1) * inc) by lia.
      exact Hend.
Qed.

(** The search raises nothing. *)
Lemma while_loop_not_raised (fuel : nat) (r : Z) (w : World EV) (e : exn) (w' : World EV) :
  while_loop fuel self sid (<[sid := [r]]> sch0) w ≠ Raised e w'.
Proof.
  revert r w. induction fuel as [|fuel IH]; intros r w; [done|].
  rewrite while_loop_S.
  destruct (feasible r); [done|]. destruct (r - inc <? 0); [done|]. apply IH.
Qed.

(** More fuel does not change the result of a finished search. *)
Lemma while_loop_fuel_mono (fuel fuel' : nat) (r : Z) (w : World EV)
    (sch' : Schedule) (w' : World EV) :
  (fuel ≤ fuel')%nat →
  while_loop fuel self sid (<[sid := [r]]> sch0) w = Done sch' w' →
  while_loop fuel' self sid (<[sid := [r]]> sch0) w = Done sch' w'.
Proof.
  revert fuel' r w. induction fuel as [|fuel IH]; intros fuel' r w Hle; [done|].
  destruct fuel' as [|fuel']; [lia|].
  rewrite !while_loop_S.
  destruct (feasible r); [done|]. destruct (r - inc <? 0); [done|].
  apply IH. lia.
Qed.

(** With a positive increment the search ends within
    [floor (r / inc) + 1] turns. *)
Lemma while_loop_total (fuel : nat) (r : Z) (w : World EV) :
  0 < inc →
  (Z.to_nat (r / inc) + 1 ≤ fuel)%nat →
  ∃ sch' w', while_loop fuel self sid (<[sid := [r]]> sch0) w = Done sch' w'.
Proof.
  intros Hinc. revert r w. induction fuel as [|fuel IH]; intros r w Hfuel; [lia|].
  rewrite while_loop_S.
  destruct (feasible r); [eauto|].
  destruct (Z.ltb_spec (r - inc) 0) as [Hneg|Hpos]; [eauto|].
  apply IH.
  assert (r / inc = (r - inc) / inc + 1) as Hdiv.
  { replace r with ((r - inc) + 1 * inc) at 1 by lia.
    rewrite Z.div_add by lia. done. }
  assert (0 ≤ (r - inc) / inc) by (apply Z.div_pos; lia).
  lia.
Qed.




Lemma tested_rates_elem (r i x : Z) (n : nat) :
  x ∈ tested_rates r i n → ∃ j : nat, (j < n)%nat ∧ x = r - Z.of_nat j * i.
Proof.
  revert r. induction n as [|n IH]; simpl; intros r Hx.
  - by apply elem_of_nil in Hx.
  - apply elem_of_cons in Hx as [->|Hx].
    + exists O. split; lia.
    + destruct (IH _ Hx) as (j & Hj & ->). exists (S j). split; lia.
Qed.
End SearchFacts.

(** ** The call log *)

Lemma oracle_calls_app (cs cs' : list call) :
  oracle_calls (cs ++ cs') = oracle_calls cs ++ oracle_calls cs'.
Proof.
  induction cs as [|[sid|sch t] cs IH]; simpl; [done|done|by rewrite IH].
Qed.

Lemma pilot_calls_app (cs cs' : list call) :
  pilot_calls (cs ++ cs') = pilot_calls cs ++ pilot_calls cs'.
Proof.
  induction cs as [|[sid|sch t] cs IH]; simpl; [done|by rewrite IH|done].
Qed.

Lemma oracle_calls_queries (f : Z → Schedule) (rs : list Z) :
  oracle_calls (map (λ x, CallIsFeasible (f x) 0) rs) = map f rs.
Proof. induction rs as [|r rs IH]; simpl; [done|by rewrite IH]. Qed.

Lemma pilot_calls_queries (f : Z → Schedule) (rs : list Z) :
  pilot_calls (map (λ x, CallIsFeasible (f x) 0) rs) = [].
Proof. induction rs as [|r rs IH]; simpl; done. Qed.

(** ** One iteration of the [for] loop *)

Section BodyFacts.
Context {EV : Type}.
Variable station_id : EV → string.
Variable self : EarliestDeadlineFirstAlgo.

Local Abbreviation inc := (_increment self).
Local Abbreviation mps := (max_pilot_signal (interface self)).

Lemma loop_body_spec (fuel : nat) (ev : EV) (sch : Schedule) (w : World EV)
    (sch' : Schedule) (w' : World EV) :
  loop_body station_id fuel self ev sch w = Done sch' w' →
  ∃ k : nat, (k < fuel)%nat ∧
    active_evs w' = active_evs w ∧
    calls w' = calls w ++ CallMaxPilotSignal (station_id ev)
      :: map (λ x, CallIsFeasible (<[station_id ev := [x]]> sch) 0)
           (tested_rates (mps (station_id ev)) inc (S k)) ∧
    search_end self (station_id ev) sch (mps (station_id ev)) k sch'.
Proof.
  unfold loop_body, bind, call_max_pilot_signal. intros Hrun.
  apply while_loop_spec in Hrun as (k & Hk & Hevs & Hcalls & Hend).
  exists k. split; [done|]. split; [done|]. split; [|done].
  rewrite Hcalls. simpl. by rewrite <- app_assoc.
Qed.

Lemma loop_body_not_raised (fuel : nat) (ev : EV) (sch : Schedule) (w : World EV)
    (e : exn) (w' : World EV) :
  loop_body station_id fuel self ev sch w ≠ Raised e w'.
Proof. unfold loop_body, bind, call_max_pilot_signal. apply while_loop_not_raised. Qed.

Lemma loop_body_fuel_mono (fuel fuel' : nat) (ev : EV) (sch : Schedule) (w : World EV)
    (sch' : Schedule) (w' : World EV) :
  (fuel ≤ fuel')%nat →
  loop_body station_id fuel self ev sch w = Done sch' w' →
  loop_body station_id fuel' self ev sch w = Done sch' w'.
Proof. unfold loop_body, bind, call_max_pilot_signal. apply while_loop_fuel_mono. Qed.

Lemma loop_body_total (fuel : nat) (ev : EV) (sch : Schedule) (w : World EV) :
  0 < inc →
  (Z.to_nat (mps (station_id ev) / inc) + 1 ≤ fuel)%nat →
  ∃ sch' w', loop_body station_id fuel self ev sch w = Done sch' w'.
Proof. unfold loop_body, bind, call_max_pilot_signal. apply while_loop_total. Qed.

(** The schedule an iteration leaves differs from the one it found in the
    rate of its own station only. *)
Lemma search_end_rate (sid : string) (sch : Schedule) (m : Z) (k : nat) (sch' : Schedule) :
  search_end self sid sch m k sch' →
  ∃ x, sch' = <[sid := [x]]> sch ∧ (0 < inc → 0 ≤ m → 0 ≤ x ≤ m).
Proof.
  intros [Hall [[_ ->]|(_ & _ & ->)]].
  - eexists. split; [done|]. intros Hinc Hm. destruct k as [|k]; [lia|].
    destruct (Hall k ltac:(lia)) as [_ Hge]. nia.
  - exists 0. split; [done|]. lia.
Qed.

(** The result of an iteration does not depend on the world it runs in. *)
Lemma loop_body_any_world (fuel : nat) (ev : EV) (sch : Schedule) (w1 w2 : World EV)
    (sch' : Schedule) (w1' : World EV) :
  loop_body station_id fuel self ev sch w1 = Done sch' w1' →
  ∃ w2', loop_body station_id fuel self ev sch w2 = Done sch' w2'.
Proof.
  unfold loop_body, bind, call_max_pilot_signal.
  generalize (log (CallMaxPilotSignal (station_id ev)) w1).
  generalize (log (CallMaxPilotSignal (station_id ev)) w2).
  generalize (mps (station_id ev)).
  induction fuel as [|fuel IH]; intros r v2 v1; [done|].
  rewrite !while_loop_S.
  destruct (is_feasible _ _ _); [intros [= <- <-]; eauto|].
  destruct (r - inc <? 0); [intros [= <- <-]; eauto|].
  apply IH.
Qed.
End BodyFacts.

(** ** The [for] loop and [schedule] *)

Section LoopFacts.
Context {EV : Type}.
Variable station_id : EV → string.
Variable estimated_departure : EV → Z.
Variable self : EarliestDeadlineFirstAlgo.

Local Abbreviation inc := (_increment self).
Local Abbreviation mps := (max_pilot_signal (interface self)).

Lemma for_loop_app (fuel : nat) (l1 l2 : list EV) (sch : Schedule) (w : World EV) :
  for_loop station_id fuel self (l1 ++ l2) sch w =
    match for_loop station_id fuel self l1 sch w with
    | Done sch1 w1 => for_loop station_id fuel self l2 sch1 w1
    | Raised e w1 => Raised e w1
    | OutOfFuel => OutOfFuel
    end.
Proof.
  revert sch w. induction l1 as [|ev l1 IH]; intros sch w; simpl; [done|].
  unfold bind. destruct (loop_body _ _ _ _ _ _); [apply IH|done|done].
Qed.

Lemma for_loop_not_raised (fuel : nat) (evs : list EV) (sch : Schedule) (w : World EV)
    (e : exn) (w' : World EV) :
  for_loop station_id fuel self evs sch w ≠ Raised e w'.
Proof.
  revert sch w. induction evs as [|ev evs IH]; intros sch w; simpl; [done|].
  unfold bind. destruct (loop_body _ _ _ _ _ _) eqn:Hbody; [apply IH| |done].
  by apply loop_body_not_raised in Hbody.
Qed.

Lemma for_loop_fuel_mono (fuel fuel' : nat) (evs : list EV) (sch : Schedule) (w : World EV)
    (sch' : Schedule) (w' : World EV) :
  (fuel ≤ fuel')%nat →
  for_loop station_id fuel self evs sch w = Done sch' w' →
  for_loop station_id fuel' self evs sch w = Done sch' w'.
Proof.
  intros Hle. revert sch w. induction evs as [|ev evs IH]; intros sch w; simpl; [done|].
  unfold bind. destruct (loop_body _ fuel _ _ _ _) eqn:Hbody; [|done|done].
  rewrite (loop_body_fuel_mono _ _ _ _ _ _ _ _ _ Hle Hbody). apply IH.
Qed.

(** A fuel budget that is enough for every EV of the list. *)
Lemma for_loop_total (evs : list EV) (sch : Schedule) (w : World EV) :
  0 < inc →
  ∃ fuel sch' w', for_loop station_id fuel self evs sch w = Done sch' w'.
Proof.
  intros Hinc. revert sch w. induction evs as [|ev evs IH]; intros sch w.
  - exists O. simpl. unfold ret. eauto.
  - destruct (loop_body_total station_id self
                (Z.to_nat (mps (station_id ev) / inc) + 1) ev sch w Hinc ltac:(lia))
      as (sch1 & w1 & Hbody).
    destruct (IH sch1 w1) as (fuel2 & sch' & w' & Hrest).
    set (fuel1 := (Z.to_nat (mps (station_id ev) / inc) + 1)%nat) in *.
    exists (fuel1 `max` fuel2)%nat, sch', w'.
    simpl. unfold bind.
    rewrite (loop_body_fuel_mono station_id self fuel1 (fuel1 `max` fuel2)%nat
               ev sch w sch1 w1 ltac:(lia) Hbody).
    eapply for_loop_fuel_mono; [|exact Hrest]. lia.
Qed.

(** An invariant of the schedule that every iteration keeps holds at the
    end of the loop. *)
Lemma for_loop_invariant (P : Schedule → Prop) (fuel : nat) (evs : list EV)
    (sch : Schedule) (w : World EV) (sch' : Schedule) (w' : World EV) :
  (∀ ev s x, ev ∈ evs → P s → (0 < inc → 0 ≤ mps (station_id ev) → 0 ≤ x ≤ mps (station_id ev)) →
     P (<[station_id ev := [x]]> s)) →
  P sch →
  for_loop station_id fuel self evs sch w = Done sch' w' →
  P sch'.
Proof.
  revert sch w. induction evs as [|ev evs IH]; intros sch w Hstep Hsch; simpl.
  - by intros [= <- <-].
  - unfold bind. destruct (loop_body _ _ _ _ _ _) as [sch1 w1| |] eqn:Hbody; [|done|done].
    apply IH.
    + intros ev' s x Hin. apply Hstep. by right.
    + apply loop_body_spec in Hbody as (k & _ & _ & _ & Hend).
      apply search_end_rate in Hend as (x & -> & Hx).
      apply Hstep; [by left|done|done].
Qed.

(** The loop leaves the caller's list alone and only adds to the log. *)
Lemma for_loop_world (fuel : nat) (evs : list EV) (sch : Schedule) (w : World EV)
    (sch' : Schedule) (w' : World EV) :
  for_loop station_id fuel self evs sch w = Done sch' w' →
  active_evs w' = active_evs w ∧
  ∃ cs, calls w' = calls w ++ cs ∧ pilot_calls cs = map station_id evs.
Proof.
  revert sch w. induction evs as [|ev evs IH]; intros sch w; simpl.
  - intros [= <- <-]. split; [done|]. exists []. by rewrite app_nil_r.
  - unfold bind. destruct (loop_body _ _ _ _ _ _) as [sch1 w1| |] eqn:Hbody; [|done|done].
    intros Hrest. apply IH in Hrest as (Hevs & cs & Hcs & Hpilot).
    apply loop_body_spec in Hbody as (k & _ & Hevs1 & Hcalls1 & _).
    split; [congruence|].
    eexists. split.
    + rewrite Hcs, Hcalls1, <- app_assoc. done.
    + rewrite pilot_calls_app. simpl. rewrite pilot_calls_queries. simpl.
      by rewrite Hpilot.
Qed.


(** The result of the loop depends on the station ids only, and not on the
    world. *)
Lemma for_loop_any_world (fuel : nat) (evs1 evs2 : list EV) (sch : Schedule)
    (w1 w2 : World EV) (sch' : Schedule) (w1' : World EV) :
  map station_id evs1 = map station_id evs2 →
  for_loop station_id fuel self evs1 sch w1 = Done sch' w1' →
  ∃ w2', for_loop station_id fuel self evs2 sch w2 = Done sch' w2'.
Proof.
  revert evs2 sch w1 w2.
  induction evs1 as [|ev1 evs1 IH]; intros [|ev2 evs2] sch w1 w2 Hmap; try done; simpl.
  - intros [= <- <-]. unfold ret. eauto.
  - simpl in Hmap. injection Hmap as Hsid Hmap.
    unfold bind. destruct (loop_body _ _ _ ev1 _ _) as [sch1 v1| |] eqn:Hbody; [|done|done].
    intros Hrest.
    destruct (loop_body_any_world _ _ _ _ _ _ w2 _ _ Hbody) as (v2 & Hbody2).
    unfold loop_body in Hbody2 |- *. rewrite <- Hsid, Hbody2.
    by eapply IH.
Qed.

(** *** The initial schedule *)

Lemma init_schedule_lookup (evs : list EV) (s : string) :
  init_schedule station_id evs !! s
  = if decide (s ∈ map station_id evs) then Some [0] else None.
Proof.
  unfold init_schedule.
  assert (∀ d : Schedule,
    foldl (λ d ev, <[station_id ev := [0]]> d) d evs !! s
    = if decide (s ∈ map station_id evs) then Some [0] else d !! s) as Hgen.
  { induction evs as [|ev evs IH]; intros d; cbn [foldl map].
    - by rewrite decide_False by apply not_elem_of_nil.
    - rewrite IH.
      destruct (decide (s ∈ map station_id evs)) as [Hin|Hnin].
      + rewrite decide_True; [done|]. by right.
      + destruct (decide (s = station_id ev)) as [->|Hne].
        * rewrite decide_True by left. by rewrite lookup_insert_eq.
        * rewrite decide_False by (by apply not_elem_of_cons).
          by rewrite lookup_insert_ne. }
  rewrite Hgen. by rewrite lookup_empty.
Qed.

Lemma init_schedule_map (evs1 evs2 : list EV) :
  map station_id evs1 = map station_id evs2 →
  init_schedule station_id evs1 = init_schedule station_id evs2.
Proof.
  intros Hmap. apply map_eq. intros s. by rewrite !init_schedule_lookup, Hmap.
Qed.

Lemma init_schedule_dom (evs : list EV) :
  dom (init_schedule station_id evs) = list_to_set (map station_id evs).
Proof.
  apply set_eq. intros s. rewrite elem_of_dom, init_schedule_lookup, elem_of_list_to_set.
  case_decide; split; done.
Qed.

Lemma sorted_evs_stations (evs : list EV) (s : string) :
  s ∈ map station_id (sorted_evs estimated_departure evs) ↔ s ∈ map station_id evs.
Proof.
  unfold sorted_evs. by rewrite (sorted_perm estimated_departure evs).
Qed.

(** *** Iterations *)

Lemma returns_iteration (w : World EV) (sch : Schedule) (w' : World EV)
    (pre : list EV) (ev : EV) (post : list EV) :
  returns station_id estimated_departure self w sch w' →
  sorted_evs estimated_departure (active_evs w) = pre ++ ev :: post →
  ∃ it, iteration_of station_id estimated_departure self w sch w' it ∧
    it_pre it = pre ∧ it_ev it = ev ∧ it_post it = post.
Proof.
  intros [fuel Hrun] Hsplit. unfold schedule, bind, read_active_evs in Hrun.
  rewrite Hsplit, for_loop_app in Hrun.
  destruct (for_loop _ _ _ pre _ _) as [sch1 w1| |] eqn:Hpre; [|done|done].
  simpl in Hrun. unfold bind in Hrun.
  destruct (loop_body _ _ _ ev _ _) as [sch2 w2| |] eqn:Hbody; [|done|done].
  exists {| it_pre := pre; it_ev := ev; it_post := post;
            sch_before := sch1; w_before := w1; sch_after := sch2; w_after := w2 |}.
  split; [|done]. exists fuel. simpl. done.
Qed.

Lemma iteration_returns (w : World EV) (sch : Schedule) (w' : World EV) (it : iteration) :
  iteration_of station_id estimated_departure self w sch w' it →
  returns station_id estimated_departure self w sch w'.
Proof.
  intros (fuel & Hsplit & Hpre & Hbody & Hpost). exists fuel.
  unfold schedule, bind, read_active_evs.
  rewrite Hsplit, for_loop_app, Hpre. simpl. unfold bind. by rewrite Hbody.
Qed.

(** What an iteration does, as a search. *)
Lemma iteration_spec (w : World EV) (sch : Schedule) (w' : World EV) (it : iteration) :
  iteration_of station_id estimated_departure self w sch w' it →
  ∃ k : nat,
    calls_of it = CallMaxPilotSignal (station_id (it_ev it))
      :: map (λ x, CallIsFeasible (<[station_id (it_ev it) := [x]]> (sch_before it)) 0)
           (tested_rates (mps (station_id (it_ev it))) inc (S k)) ∧
    search_end self (station_id (it_ev it)) (sch_before it)
      (mps (station_id (it_ev it))) k (sch_after it).
Proof.
  intros (fuel & _ & _ & Hbody & _).
  apply loop_body_spec in Hbody as (k & _ & _ & Hcalls & Hend).
  exists k. split; [|done].
  unfold calls_of. rewrite Hcalls. by rewrite drop_app_length.
Qed.

Lemma schedule_total (w : World EV) :
  0 < inc → ∃ sch w', returns station_id estimated_departure self w sch w'.
Proof.
  intros Hinc.
  destruct (for_loop_total (sorted_evs estimated_departure (active_evs w))
              (init_schedule station_id (active_evs w)) w Hinc) as (fuel & sch & w' & Hrun).
  exists sch, w', fuel. done.
Qed.

Lemma returns_unique (w : World EV) (sch1 sch2 : Schedule) (w1 w2 : World EV) :
  returns station_id estimated_departure self w sch1 w1 →
  returns station_id estimated_departure self w sch2 w2 →
  sch1 = sch2 ∧ w1 = w2.
Proof.
  intros [fuel1 H1] [fuel2 H2]. unfold schedule, bind, read_active_evs in *.
  apply (for_loop_fuel_mono _ (fuel1 `max` fuel2)%nat) in H1; [|lia].
  apply (for_loop_fuel_mono _ (fuel1 `max` fuel2)%nat) in H2; [|lia].
  rewrite H1 in H2. by injection H2.
Qed.
End LoopFacts.

(** ** Properties of [schedule] *)

Section Claims.
Context {EV : Type}.
Variable station_id : EV → string.
Variable estimated_departure : EV → Z.

Local Abbreviation returns := (returns station_id estimated_departure).
Local Abbreviation iteration_of := (iteration_of station_id estimated_departure).
Local Abbreviation order w := (sorted_evs estimated_departure (active_evs w)).

(** C4.  With a positive increment and non-negative pilot-signal ceilings,
    [schedule] returns, and every entry of the schedule it returns is a
    single rate within [0, max_pilot_signal station]: each search lowers the
    candidate by the increment on every rejection and leaves exactly 0, not
    a negative rate, as soon as the candidate would fall below 0. *)
Theorem schedule_rates_within_bounds (self : EarliestDeadlineFirstAlgo) (w : World EV) :
  0 < _increment self →
  (∀ s, 0 ≤ max_pilot_signal (interface self) s) →
  (∃ sch w', returns self w sch w') ∧
  (∀ sch w', returns self w sch w' →
     ∀ s l, sch !! s = Some l →
       ∃ r, l = [r] ∧ 0 ≤ r ≤ max_pilot_signal (interface self) s) ∧
  (∀ sch w' it, iteration_of self w sch w' it →
     ∃ k, search_end self (station_id (it_ev it)) (sch_before it)
            (max_pilot_signal (interface self) (station_id (it_ev it))) k (sch_after it)).
Proof.
  intros Hinc Hmps. split; [by apply schedule_total|]. split.
  - intros sch w' [fuel Hrun]. unfold schedule, bind, read_active_evs in Hrun.
    eapply (for_loop_invariant station_id self
              (λ sch, ∀ s l, sch !! s = Some l →
                 ∃ r, l = [r] ∧ 0 ≤ r ≤ max_pilot_signal (interface self) s));
      [| |exact Hrun].
    + intros ev sch0 x _ IH Hx s l.
      destruct (decide (station_id ev = s)) as [<-|Hne].
      * rewrite lookup_insert_eq. intros [= <-]. exists x. split; [done|].
        by apply Hx.
      * rewrite lookup_insert_ne by done. apply IH.
    + intros s l. rewrite init_schedule_lookup. case_decide; [|done].
      intros [= <-]. exists 0. split; [done|]. specialize (Hmps s). lia.
  - intros sch w' it Hit.
    destruct (iteration_spec _ _ _ _ _ _ _ Hit) as (k & _ & Hend). eauto.
Qed.

(** C6.  The schedule starts with every station of [active_evs] mapped to
    [[0]]; the dict [schedule] returns has exactly the station ids of
    [active_evs] as keys and a list of length 1 under each; with a positive
    increment it does return; and the instance built by [__init__] declares
    [max_recompute = 1]. *)
Theorem schedule_shape (iface : Interface) (increment : Z) (w : World EV) :
  let self := __init__ iface increment in
  (∀ s, s ∈ map station_id (active_evs w) →
     init_schedule station_id (active_evs w) !! s = Some [0]) ∧
  dom (init_schedule station_id (active_evs w))
    = list_to_set (map station_id (active_evs w)) ∧
  (∀ sch w', returns self w sch w' →
     dom sch = list_to_set (map station_id (active_evs w)) ∧
     ∀ s l, sch !! s = Some l → length l = 1%nat) ∧
  (0 < increment → ∃ sch w', returns self w sch w') ∧
  max_recompute self = 1.
Proof.
  intros self. split; [|split; [|split; [|split]]].
  - intros s Hs. rewrite init_schedule_lookup. by rewrite decide_True.
  - apply init_schedule_dom.
  - intros sch w' [fuel Hrun]. unfold schedule, bind, read_active_evs in Hrun.
    eapply (for_loop_invariant station_id self
              (λ sch, dom sch = list_to_set (map station_id (active_evs w)) ∧
                      ∀ s l, sch !! s = Some l → length l = 1%nat));
      [| |exact Hrun].
    + intros ev sch0 x Hev [Hdom Hlen] _. split.
      * rewrite dom_insert_L.
        assert (station_id ev ∈ map station_id (active_evs w)) as Hin.
        { apply (sorted_evs_stations station_id estimated_departure).
          apply list_elem_of_fmap. eauto. }
        rewrite <- Hdom.
        apply subseteq_union_1_L, singleton_subseteq_l.
        rewrite Hdom. by apply elem_of_list_to_set.
      * intros s l. destruct (decide (station_id ev = s)) as [<-|Hne].
        -- rewrite lookup_insert_eq. by intros [= <-].
        -- rewrite lookup_insert_ne by done. apply Hlen.
    + split; [apply init_schedule_dom|].
      intros s l. rewrite init_schedule_lookup. case_decide; [|done]. by intros [= <-].
  - intros Hinc. by apply schedule_total.
  - done.
Qed.

(** C9.  [schedule] leaves the caller's list alone: when it returns, the
    list [active_evs] and the EV objects in it (hence their [station_id] and
    [estimated_departure]) are what they were before the call; the only
    trace the call leaves in the world is the log of its interface calls,
    which grows by appending. *)
Theorem schedule_preserves_active_evs (self : EarliestDeadlineFirstAlgo)
    (w : World EV) (sch : Schedule) (w' : World EV) :
  returns self w sch w' →
  active_evs w' = active_evs w ∧
  map station_id (active_evs w') = map station_id (active_evs w) ∧
  map estimated_departure (active_evs w') = map estimated_departure (active_evs w) ∧
  ∃ cs, calls w' = calls w ++ cs.
Proof.
  intros [fuel Hrun]. unfold schedule, bind, read_active_evs in Hrun.
  apply for_loop_world in Hrun as (Hevs & cs & Hcs & _).
  rewrite Hevs. repeat split. by exists cs.
Qed.

(** C7.  Two calls whose lists agree, element by element, on [station_id]
    and [estimated_departure], made with the same instance (hence the same
    pure oracle functions), return equal schedules, whatever else differs
    between the EV objects and between the worlds the calls start in: if one
    call returns a schedule, the other call returns too, and whatever it
    returns is that schedule. *)
Theorem schedule_deterministic (self : EarliestDeadlineFirstAlgo)
    (w1 w2 : World EV) (sch1 : Schedule) (w1' : World EV) :
  map station_id (active_evs w1) = map station_id (active_evs w2) →
  map estimated_departure (active_evs w1) = map estimated_departure (active_evs w2) →
  returns self w1 sch1 w1' →
  (∃ w2', returns self w2 sch1 w2') ∧
  (∀ sch2 w2', returns self w2 sch2 w2' → sch1 = sch2).
Proof.
  intros Hsid Hdep [fuel Hrun1].
  set (R := λ a b : EV, station_id a = station_id b ∧
                        estimated_departure a = estimated_departure b).
  assert (Forall2 R (active_evs w1) (active_evs w2)) as HR.
  { revert Hsid Hdep. generalize (active_evs w1) (active_evs w2).
    induction l as [|a l IH]; intros [|b l'] Hs Hd; try done.
    simpl in Hs, Hd. injection Hs as Hs1 Hs. injection Hd as Hd1 Hd.
    constructor; [done|by apply IH]. }
  assert (Forall2 R (order w1) (order w2)) as HR'.
  { apply sorted_Forall2; [|done]. by intros a b [_ ?]. }
  assert (map station_id (order w1) = map station_id (order w2)) as Hord.
  { induction HR' as [|a b l l' [Hab _] _ IH]; simpl; [done|].
    by rewrite Hab, IH. }
  unfold schedule, bind, read_active_evs in Hrun1.
  rewrite (init_schedule_map station_id _ _ Hsid) in Hrun1.
  destruct (for_loop_any_world station_id self _ _ _ _ _ w2 _ _ Hord Hrun1) as (v2 & Hrun).
  assert (returns self w2 sch1 v2) as Hret by (by exists fuel).
  split; [by exists v2|].
  intros sch2 w2' Hret2.
  by destruct (returns_unique _ _ _ _ _ _ _ _ Hret Hret2).
Qed.

(** C5.  [schedule] processes the EVs in the order of the stable sort of
    [active_evs] by [estimated_departure]: the stations whose ceiling it asks
    for, one at the start of each iteration, are those of the sorted list, in
    order; the sorted list is a rearrangement of [active_evs] in ascending
    order of departure in which EVs of equal departure keep their order of
    appearance; hence every EV departing strictly earlier than the one being
    processed has been processed before it. *)
Theorem schedule_order (self : EarliestDeadlineFirstAlgo)
    (w : World EV) (sch : Schedule) (w' : World EV) :
  returns self w sch w' →
  (∃ cs, calls w' = calls w ++ cs ∧ pilot_calls cs = map station_id (order w)) ∧
  Permutation (order w) (active_evs w) ∧
  StronglySorted (λ a b, estimated_departure a ≤ estimated_departure b) (order w) ∧
  (∀ d, filter (λ e, estimated_departure e = d) (order w)
        = filter (λ e, estimated_departure e = d) (active_evs w)) ∧
  (∀ it, iteration_of self w sch w' it →
     ∀ e, e ∈ active_evs w →
       estimated_departure e < estimated_departure (it_ev it) → e ∈ it_pre it).
Proof.
  intros Hret. split; [|split; [|split; [|split]]].
  - destruct Hret as [fuel Hrun]. unfold schedule, bind, read_active_evs in Hrun.
    apply for_loop_world in Hrun as (_ & cs & Hcs & Hpilot). eauto.
  - apply sorted_perm.
  - apply sorted_ordered.
  - intros d. apply sorted_stable.
  - intros it (fuel & Hsplit & _) e He Hlt.
    pose proof (sorted_ordered estimated_departure (active_evs w)) as Hsorted.
    fold (order w) in Hsorted.
    assert (e ∈ order w) as Hin by (by rewrite (sorted_perm estimated_departure (active_evs w))).
    rewrite Hsplit in Hsorted, Hin.
    apply elem_of_app in Hin as [Hin|Hin]; [done|].
    apply StronglySorted_app in Hsorted as (_ & _ & Hsorted).
    apply StronglySorted_inv in Hsorted as [_ Hall].
    apply elem_of_cons in Hin as [->|Hin]; [lia|].
    rewrite Forall_forall in Hall. specialize (Hall e Hin). simpl in Hall. lia.
Qed.

(** C8.  With a positive increment, an EV whose station has
    [max_pilot_signal = 0] gets rate 0: its iteration leaves [[0]] under its
    station after exactly one call of the feasibility oracle, made on the
    schedule with that rate, and the returned schedule holds [[0]] for the
    station. *)
Theorem zero_ceiling_single_check (self : EarliestDeadlineFirstAlgo) (w : World EV) :
  0 < _increment self →
  (∃ sch w', returns self w sch w') ∧
  ∀ sch w', returns self w sch w' →
    (∀ ev, ev ∈ active_evs w →
       max_pilot_signal (interface self) (station_id ev) = 0 →
       sch !! station_id ev = Some [0]) ∧
    (∀ it, iteration_of self w sch w' it →
       max_pilot_signal (interface self) (station_id (it_ev it)) = 0 →
       sch_after it = <[station_id (it_ev it) := [0]]> (sch_before it) ∧
       oracle_calls (calls_of it) = [<[station_id (it_ev it) := [0]]> (sch_before it)]).
Proof.
  intros Hinc. split; [by apply schedule_total|].
  intros sch w' Hret. split.
  - intros ev Hev Hzero. destruct Hret as [fuel Hrun].
    unfold schedule, bind, read_active_evs in Hrun.
    eapply (for_loop_invariant station_id self
              (λ sch, sch !! station_id ev = Some [0])); [| |exact Hrun].
    + intros ev' sch0 x _ IH Hx.
      destruct (decide (station_id ev' = station_id ev)) as [Heq|Hne].
      * rewrite Heq, lookup_insert_eq. rewrite Heq, Hzero in Hx.
        f_equal. f_equal. lia.
      * by rewrite lookup_insert_ne.
    + rewrite init_schedule_lookup, decide_True; [done|].
      apply list_elem_of_fmap. eauto.
  - intros it Hit Hzero.
    destruct (iteration_spec _ _ _ _ _ _ _ Hit) as (k & Hcalls & Hall & Hend).
    rewrite Hzero in *. destruct k as [|k].
    + split.
      * destruct Hend as [[_ ->]|(_ & _ & ->)]; [|done]. f_equal.
      * rewrite Hcalls. simpl. done.
    + destruct (Hall O ltac:(lia)) as [_ Hge]. lia.
Qed.




(** C3, amended.  An iteration ends in one of two ways.  Either its last
    interface call is the oracle call on the very schedule it leaves, and
    the oracle accepted it; or the rate was clamped: the iteration leaves 0
    under its station, no oracle call of the iteration was accepted, and no
    call follows the clamp. *)
Theorem committed_rate_verified_unless_clamped (self : EarliestDeadlineFirstAlgo)
    (w : World EV) (sch : Schedule) (w' : World EV) (it : iteration) :
  iteration_of self w sch w' it →
  (∃ cs, calls_of it = cs ++ [CallIsFeasible (sch_after it) 0] ∧
         is_feasible (interface self) (sch_after it) 0 = true) ∨
  (sch_after it = <[station_id (it_ev it) := [0]]> (sch_before it) ∧
   ∀ q, q ∈ oracle_calls (calls_of it) → is_feasible (interface self) q 0 = false).
Proof.
  intros Hit.
  destruct (iteration_spec _ _ _ _ _ _ _ Hit) as (k & Hcalls & Hall & Hend).
  assert (∀ r i (n : nat), tested_rates r i (S n)
            = tested_rates r i n ++ [r - Z.of_nat n * i]) as Hsnoc.
  { intros r i n. revert r. induction n as [|n IH]; intros r.
    - simpl. f_equal. lia.
    - change (tested_rates r i (S (S n))) with (r :: tested_rates (r - i) i (S n)).
      rewrite IH. simpl. do 3 f_equal. lia. }
  destruct Hend as [[Hacc ->]|(Hlastrej & Hneg & ->)].
  - left. eexists. split; [|done].
    rewrite Hcalls, Hsnoc, map_app. simpl. by rewrite app_comm_cons.
  - right. split; [done|]. intros q Hq.
    rewrite Hcalls in Hq. cbn [oracle_calls] in Hq.
    rewrite oracle_calls_queries in Hq.
    apply list_elem_of_fmap in Hq as (x & -> & Hx).
    apply tested_rates_elem in Hx as (j & Hj & ->).
    destruct (decide (j = k)) as [->|Hne]; [done|].
    by destruct (Hall j ltac:(lia)).
Qed.

(** A monotone oracle that rejects the all-zero schedule rejects every rate
    the loop tries, so that every iteration ends on the clamp. *)
Lemma for_loop_all_rejected (self : EarliestDeadlineFirstAlgo) (fuel : nat)
    (evs : list EV) (init : Schedule) (w : World EV) (sch' : Schedule) (w' : World EV) :
  0 < _increment self →
  (∀ s, 0 ≤ max_pilot_signal (interface self) s) →
  monotone (interface self) →
  is_feasible (interface self) init 0 = false →
  (∀ ev, ev ∈ evs → init !! station_id ev = Some [0]) →
  for_loop station_id fuel self evs init w = Done sch' w' →
  sch' = init.
Proof.
  intros Hinc Hmps Hmono Hrej. revert w.
  induction evs as [|ev evs IH]; intros w Hinit; simpl.
  - by intros [= <- <-].
  - unfold bind. destruct (loop_body _ _ _ _ _ _) as [sch1 w1| |] eqn:Hbody; [|done|done].
    apply loop_body_spec in Hbody as (k & _ & _ & _ & Hall & Hend).
    assert (init !! station_id ev = Some [0]) as Hev by (apply Hinit; by left).
    assert (sch1 = init) as ->.
    { destruct Hend as [[Hacc _]|(_ & _ & ->)]; [|by apply insert_id].
      exfalso.
      assert (0 ≤ max_pilot_signal (interface self) (station_id ev)
                  - Z.of_nat k * _increment self) as Hge.
      { destruct k as [|k]; [specialize (Hmps (station_id ev)); lia|].
        destruct (Hall k ltac:(lia)) as [_ Hge]. lia. }
      apply (Hmono init (station_id ev) _ 0) in Hacc; [|lia].
      rewrite (insert_id _ _ _ Hev) in Hacc. congruence. }
    apply IH. intros ev' Hev'. apply Hinit. by right.
Qed.

(** C2, amended.  [schedule] signals no error, whatever the oracle answers.
    With a positive increment, non-negative ceilings and a monotone oracle
    that rejects the all-zero schedule, it returns normally, and what it
    returns is the all-zero schedule, which the oracle has rejected. *)
Theorem infeasible_baseline_returns_zero_schedule (self : EarliestDeadlineFirstAlgo)
    (w : World EV) :
  let zero := init_schedule station_id (active_evs w) in
  0 < _increment self →
  (∀ s, 0 ≤ max_pilot_signal (interface self) s) →
  monotone (interface self) →
  is_feasible (interface self) zero 0 = false →
  (∀ fuel e w', schedule station_id estimated_departure fuel self w ≠ Raised e w') ∧
  (∃ w', returns self w zero w') ∧
  (∀ sch w', returns self w sch w' →
     sch = zero ∧ is_feasible (interface self) sch 0 = false).
Proof.
  intros zero Hinc Hmps Hmono Hrej.
  assert (∀ sch w', returns self w sch w' → sch = zero) as Hzero.
  { intros sch w' [fuel Hrun]. unfold schedule, bind, read_active_evs in Hrun.
    apply for_loop_all_rejected in Hrun; try done.
    intros ev Hev. unfold zero. rewrite init_schedule_lookup, decide_True; [done|].
    apply (sorted_evs_stations station_id estimated_departure).
    apply list_elem_of_fmap. eauto. }
  split; [|split].
  - intros fuel e w'. unfold schedule, bind, read_active_evs. apply for_loop_not_raised.
  - destruct (schedule_total station_id estimated_departure self w Hinc) as (sch & w' & Hret).
    exists w'. by rewrite <- (Hzero _ _ Hret).
  - intros sch w' Hret. rewrite (Hzero _ _ Hret). done.
Qed.
End Claims.

(** ** The instances at work *)

Section DemoFacts.
Import Demo.

(** The scenario of the specification: B leaves first and gets its full 16,
    A gets what is left of the shared 40. *)
Example shared_limit_schedule :
  ∃ w', run shared_limit 1 9 [ev_A; ev_B] = Done {["A" := [24]; "B" := [16]]} w'.
Proof. eexists. vm_compute. reflexivity. Qed.

Example second_iteration_runs :
  iteration_of station_id estimated_departure (__init__ shared_limit 8)
    (world [ev_A; ev_B]) {["A" := [24]; "B" := [16]]} (w_after second_iteration)
    second_iteration.
Proof. exists 3%nat. vm_compute. auto. Qed.

Lemma total_rate_insert (sch : Schedule) (s : string) (x : Z) :
  total_rate (<[s := [x]]> sch) = x + total_rate (delete s sch).
Proof.
  rewrite <- (insert_delete_eq sch). unfold total_rate.
  rewrite map_fold_insert_L; [done| |apply lookup_delete_eq].
  intros; lia.
Qed.


Lemma shared_limit_monotone : monotone shared_limit.
Proof.
  intros sch s r r' Hr. simpl. rewrite !total_rate_insert.
  intros Hacc. apply Z.leb_le in Hacc. apply Z.leb_le. lia.
Qed.

Lemma reject_all_monotone (m : Z) : monotone (reject_all m).
Proof. intros sch s r r' _ Hacc. exact Hacc. Defined.

Local Ltac runs fuel := exists fuel; vm_compute; reflexivity.

(* The bounds, in the example network. *)
Lemma schedule_rates_within_bounds_witness :
  ∃ sch w', run shared_limit 1 9 [ev_A; ev_B] = Done sch w' ∧
    ∀ s l, sch !! s = Some l → ∃ r, l = [r] ∧ 0 ≤ r ≤ max_pilot_signal shared_limit s.
Proof.
  destruct (schedule_rates_within_bounds station_id estimated_departure
              (__init__ shared_limit 1) (world [ev_A; ev_B])) as (_ & Hbounds & _).
  - simpl. lia.
  - intros s. simpl. destruct (String.eqb s "A"); lia.
  - eexists _, _. split; [vm_compute; reflexivity|].
    eapply Hbounds. runs 9%nat.
Defined.

(* The shape of the result for three EVs. *)
Lemma schedule_shape_witness :
  0 < 1 ∧
  ∃ sch w', returns station_id estimated_departure (__init__ shared_limit 1)
              (world [ev_C; ev_A; ev_B]) sch w' ∧
    dom sch = list_to_set ["C"; "A"; "B"] ∧
    ∀ s l, sch !! s = Some l → length l = 1%nat.
Proof.
  destruct (schedule_shape station_id estimated_departure shared_limit 1
              (world [ev_C; ev_A; ev_B])) as (_ & _ & Hshape & Htotal & _).
  split; [lia|].
  destruct (Htotal ltac:(lia)) as (sch & w' & Hret).
  exists sch, w'. split; [exact Hret|]. exact (Hshape sch w' Hret).
Defined.

(* The list of the example call is left as it was. *)
Lemma schedule_preserves_active_evs_witness :
  active_evs (w_after second_iteration) = [ev_A; ev_B].
Proof.
  destruct (schedule_preserves_active_evs station_id estimated_departure
              (__init__ shared_limit 8) (world [ev_A; ev_B])
              {["A" := [24]; "B" := [16]]} (w_after second_iteration)) as [Hevs _].
  - runs 3%nat.
  - exact Hevs.
Defined.

(* The same stations and departures under other session numbers, later on. *)
Lemma schedule_deterministic_witness :
  ∃ sch1 w1' sch2 w2',
    returns station_id estimated_departure (__init__ shared_limit 1)
      (world [ev_A; ev_B]) sch1 w1' ∧
    returns station_id estimated_departure (__init__ shared_limit 1)
      (later_world [ev_A'; ev_B']) sch2 w2' ∧
    sch1 = sch2.
Proof.
  eexists _, _, _, _. split; [runs 9%nat|]. split; [runs 9%nat|].
  edestruct (schedule_deterministic station_id estimated_departure
               (__init__ shared_limit 1) (world [ev_A; ev_B])
               (later_world [ev_A'; ev_B'])) as [_ Hsame].
  - reflexivity.
  - reflexivity.
  - runs 9%nat.
  - eapply Hsame. runs 9%nat.
Defined.

(* B leaves first; C and A leave together and keep their order. *)
Lemma schedule_order_witness :
  ∃ sch w', run shared_limit 1 30 [ev_C; ev_A; ev_B] = Done sch w' ∧
    ∃ cs, calls w' = cs ∧ pilot_calls cs = ["B"; "C"; "A"].
Proof.
  eexists _, _. split; [vm_compute; reflexivity|].
  edestruct (schedule_order station_id estimated_departure (__init__ shared_limit 1)
               (world [ev_C; ev_A; ev_B])) as ((cs & Hcalls & Hpilot) & _).
  - runs 30%nat.
  - exists cs. split; [exact Hcalls|exact Hpilot].
Defined.

(* A station of ceiling 0. *)
Lemma zero_ceiling_single_check_witness :
  0 < 5 ∧
  oracle_calls (calls_of (single_iteration 0 0)) = [{["A" := [0]]}] ∧
  sch_after (single_iteration 0 0) = {["A" := [0]]}.
Proof.
  split; [lia|].
  destruct (zero_ceiling_single_check station_id estimated_departure
              (__init__ (reject_all 0) 5) (world [ev_A])) as (_ & Hzero).
  - simpl. lia.
  - destruct (Hzero {["A" := [0]]} (w_after (single_iteration 0 0))) as (_ & Hit).
    + runs 1%nat.
    + destruct (Hit (single_iteration 0 0)) as (Hafter & Hcalls).
      * exists 1%nat. vm_compute. auto.
      * reflexivity.
      * split; [exact Hcalls|exact Hafter].
Defined.





(* A clamped rate is not submitted to the oracle. *)
Lemma committed_rate_verified_counterexample :
  let self := __init__ (only_zero 1) 2 in
  let it := single_iteration 1 0 in
  iteration_of station_id estimated_departure self (world [ev_A])
    {["A" := [0]]} (w_after it) it ∧
  run (only_zero 1) 2 1 [ev_A] = Done (sch_after it) (w_after it) ∧
  oracle_calls (calls (w_after it)) = [{["A" := [1]]}] ∧
  sch_after it ∉ oracle_calls (calls (w_after it)).
Proof.
  intros self it. split; [exists 1%nat; vm_compute; auto|].
  split; [vm_compute; reflexivity|]. split; [reflexivity|].
  intros Hin. apply list_elem_of_singleton in Hin.
  apply (f_equal (λ m : Schedule, m !! "A")) in Hin. vm_compute in Hin. discriminate.
Qed.

Lemma committed_rate_verified_unless_clamped_witness :
  (∃ cs, calls_of second_iteration = cs ++ [CallIsFeasible (sch_after second_iteration) 0] ∧
         is_feasible shared_limit (sch_after second_iteration) 0 = true) ∨
  (sch_after second_iteration = <["A" := [0]]> (sch_before second_iteration) ∧
   ∀ q, q ∈ oracle_calls (calls_of second_iteration) → is_feasible shared_limit q 0 = false).
Proof.
  apply (committed_rate_verified_unless_clamped station_id estimated_departure
           (__init__ shared_limit 8) (world [ev_A; ev_B])
           {["A" := [24]; "B" := [16]]} (w_after second_iteration) second_iteration).
  exists 3%nat. vm_compute. auto.
Defined.

(* An oracle that rejects the all-zero schedule. *)
Lemma infeasible_baseline_counterexample :
  is_feasible (reject_all 1) (init_schedule station_id [ev_A]) 0 = false ∧
  ∃ sch w', run (reject_all 1) 1 2 [ev_A] = Done sch w' ∧
    sch = {["A" := [0]]} ∧
    ∀ q, q ∈ oracle_calls (calls w') → is_feasible (reject_all 1) q 0 = false.
Proof.
  split; [reflexivity|]. eexists _, _. split; [vm_compute; reflexivity|].
  split; [reflexivity|]. intros q _. reflexivity.
Qed.

Lemma infeasible_baseline_returns_zero_schedule_witness :
  (0 < 1 ∧ is_feasible (reject_all 1) (init_schedule station_id [ev_A]) 0 = false) ∧
  ∃ w', returns station_id estimated_departure (__init__ (reject_all 1) 1)
          (world [ev_A]) (init_schedule station_id [ev_A]) w'.
Proof.
  split; [split; [lia|reflexivity]|].
  destruct (infeasible_baseline_returns_zero_schedule station_id estimated_departure
              (__init__ (reject_all 1) 1) (world [ev_A])) as (_ & Hret & _).
  - simpl. lia.
  - intros s. simpl. lia.
  - apply reject_all_monotone.
  - reflexivity.
  - exact Hret.
Defined.
End DemoFacts.

(** ** Further properties of [schedule] *)

Section MoreLoopFacts.
Context {EV : Type}.
Variable station_id : EV → string.
Variable estimated_departure : EV → Z.
Variable self : EarliestDeadlineFirstAlgo.

Local Abbreviation inc := (_increment self).
Local Abbreviation mps := (max_pilot_signal (interface self)).
Local Abbreviation iface := (interface self).

(** Induction over the iterations of the loop, each described by how its
    search ended. *)
Lemma for_loop_induction (P : Schedule → Prop) (fuel : nat) (evs : list EV)
    (sch : Schedule) (w : World EV) (sch' : Schedule) (w' : World EV) :
  (∀ ev s k s', ev ∈ evs → P s →
     search_end self (station_id ev) s (mps (station_id ev)) k s' → P s') →
  P sch →
  for_loop station_id fuel self evs sch w = Done sch' w' →
  P sch'.
Proof.
  revert sch w. induction evs as [|ev evs IH]; intros sch w Hstep Hsch; simpl.
  - by intros [= <- <-].
  - unfold bind. destruct (loop_body _ _ _ _ _ _) as [sch1 w1| |] eqn:Hbody; [|done|done].
    apply IH.
    + intros ev' s k s' Hin. apply Hstep. by right.
    + apply loop_body_spec in Hbody as (k & _ & _ & _ & Hend).
      eapply Hstep; [by left|done|done].
Qed.

(** A search whose first test is accepted ends there, whatever the fuel and
    the increment. *)
Lemma loop_body_first_accepted (fuel : nat) (ev : EV) (sch : Schedule) (w : World EV) :
  is_feasible iface (<[station_id ev := [mps (station_id ev)]]> sch) 0 = true →
  loop_body station_id (S fuel) self ev sch w
  = Done (<[station_id ev := [mps (station_id ev)]]> sch)
      (log (CallIsFeasible (<[station_id ev := [mps (station_id ev)]]> sch) 0)
         (log (CallMaxPilotSignal (station_id ev)) w)).
Proof.
  intros Hacc. unfold loop_body, bind, call_max_pilot_signal.
  by rewrite while_loop_S, Hacc.
Qed.

(** A search that stops after its first test: the rate is the ceiling if it
    was accepted and 0 if not. *)
Lemma search_end_single (s : string) (sch : Schedule) (m : Z) (sch' : Schedule) :
  search_end self s sch m 0 sch' →
  sch' = <[s := [if is_feasible iface (<[s := [m]]> sch) 0 then m else 0]]> sch.
Proof.
  intros [_ Hend]. replace (m - Z.of_nat 0 * inc) with m in Hend by lia.
  by destruct Hend as [[-> ->]|(-> & _ & ->)].
Qed.

Lemma ceiling_schedule_lookup (evs : list EV) (s : string) :
  ceiling_schedule station_id self evs !! s
  = if decide (s ∈ map station_id evs) then Some [mps s] else None.
Proof.
  unfold ceiling_schedule.
  assert (∀ d : Schedule,
    foldl (λ d ev, <[station_id ev := [mps (station_id ev)]]> d) d evs !! s
    = if decide (s ∈ map station_id evs) then Some [mps s] else d !! s) as Hgen.
  { induction evs as [|ev evs IH]; intros d; cbn [foldl map].
    - by rewrite decide_False by apply not_elem_of_nil.
    - rewrite IH.
      destruct (decide (s ∈ map station_id evs)) as [Hin|Hnin].
      + rewrite decide_True; [done|]. by right.
      + destruct (decide (s = station_id ev)) as [->|Hne].
        * rewrite decide_True by left. by rewrite lookup_insert_eq.
        * rewrite decide_False by (by apply not_elem_of_cons).
          by rewrite lookup_insert_ne. }
  rewrite Hgen. by rewrite lookup_empty.
Qed.

(** A monotone oracle that accepts a schedule accepts every schedule with
    the same stations and rates that are nowhere greater and nowhere
    negative. *)
Lemma monotone_pointwise (a b : Schedule) :
  monotone iface →
  (∀ s, (a !! s = None ∧ b !! s = None) ∨
        ∃ ra rb, a !! s = Some [ra] ∧ b !! s = Some [rb] ∧ 0 ≤ rb ≤ ra) →
  is_feasible iface a 0 = true →
  is_feasible iface b 0 = true.
Proof.
  intros Hmono Hab Ha.
  set (step := λ (k : string) (d : Schedule),
                 match b !! k with Some v => <[k := v]> d | None => d end).
  assert (∀ ks s, foldr step a ks !! s = if decide (s ∈ ks) then b !! s else a !! s)
    as Hlookup.
  { induction ks as [|k ks IH]; intros s; cbn [foldr].
    - by rewrite decide_False by apply not_elem_of_nil.
    - unfold step at 1. destruct (decide (s = k)) as [->|Hne].
      + rewrite decide_True by left.
        destruct (b !! k) as [v|] eqn:Hb; [by rewrite lookup_insert_eq|].
        rewrite IH. case_decide; [done|].
        by destruct (Hab k) as [[? _]|(ra & rb & _ & ? & _)]; [|congruence].
      + assert (foldr step a ks !! s = if decide (s ∈ k :: ks) then b !! s else a !! s)
          as Hs.
        { rewrite IH. destruct (decide (s ∈ ks)) as [Hin|Hnin].
          - rewrite decide_True; [done|]. by right.
          - rewrite decide_False; [done|]. by apply not_elem_of_cons. }
        destruct (b !! k); [by rewrite lookup_insert_ne|done]. }
  assert (∀ ks, is_feasible iface (foldr step a ks) 0 = true) as Hfeas.
  { induction ks as [|k ks IH]; cbn [foldr]; [done|].
    unfold step at 1.
    destruct (Hab k) as [[_ Hb]|(ra & rb & Hak & Hbk & Hle)]; rewrite ?Hb, ?Hbk; [done|].
    assert (∃ r, foldr step a ks !! k = Some [r] ∧ rb ≤ r) as (r & Hr & Hrb).
    { rewrite Hlookup. case_decide; [exists rb|exists ra]; split; try done; lia. }
    apply (Hmono _ k r rb); [lia|]. by rewrite (insert_id _ _ _ Hr). }
  replace b with (foldr step a (elements (dom a))); [apply Hfeas|].
  apply map_eq. intros s. rewrite Hlookup.
  case_decide as Hin; [done|].
  rewrite elem_of_elements, elem_of_dom in Hin.
  destruct (Hab s) as [[? ?]|(ra & rb & Has & _)]; [congruence|].
  rewrite Has in Hin. by destruct Hin.
Qed.

(** Two EVs of a list without repeated keys that have the same key are the
    same. *)
Lemma NoDup_map_inj {A B : Type} (f : A → B) (l : list A) (x y : A) :
  NoDup (map f l) → x ∈ l → y ∈ l → f x = f y → x = y.
Proof.
  induction l as [|a l IH]; simpl; intros Hnd Hx Hy Hf.
  - by apply elem_of_nil in Hx.
  - apply NoDup_cons in Hnd as [Ha Hnd].
    apply elem_of_cons in Hx as [->|Hx]; apply elem_of_cons in Hy as [->|Hy]; try done.
    + exfalso. apply Ha. rewrite Hf. apply list_elem_of_fmap. eauto.
    + exfalso. apply Ha. rewrite <- Hf. apply list_elem_of_fmap. eauto.
    + by apply IH.
Qed.

(** Lists with the same elements and no repeated key sort to the same
    list. *)
Lemma sorted_permutation (key : EV → Z) (l1 l2 : list EV) :
  Permutation l1 l2 → NoDup (map key l1) →
  sorted key l1 = sorted key l2.
Proof.
  intros Hperm Hnd.
  apply (StronglySorted_unique_strong (λ a b, key a ≤ key b)).
  - intros x1 x2 Hx1 Hx2 H12 H21.
    rewrite (sorted_perm key l1) in Hx1.
    rewrite (sorted_perm key l2), <- Hperm in Hx2.
    apply (NoDup_map_inj key l1); [done|done|done|lia].
  - apply sorted_ordered.
  - apply sorted_ordered.
  - by rewrite (sorted_perm key l1), (sorted_perm key l2).
Qed.

End MoreLoopFacts.

Section Extras.
Context {EV : Type}.
Variable station_id : EV → string.
Variable estimated_departure : EV → Z.

Local Abbreviation returns := (returns station_id estimated_departure).
Local Abbreviation iteration_of := (iteration_of station_id estimated_departure).
Local Abbreviation order w := (sorted_evs estimated_departure (active_evs w)).
Local Abbreviation zero w := (init_schedule station_id (active_evs w)).
Local Abbreviation stations w := (list_to_set (map station_id (active_evs w)) : gset string).

Lemma order_station (w : World EV) (ev : EV) :
  ev ∈ order w → station_id ev ∈ map station_id (active_evs w).
Proof.
  intros Hev. apply (sorted_evs_stations station_id estimated_departure).
  apply list_elem_of_fmap. eauto.
Qed.

(** X1.  The dict and list accesses of [schedule] never fail: whatever the
    list, the oracle, the increment and the fuel, a run has returned a
    schedule or is still in a search loop; it has raised no [KeyError] and no
    [IndexError]. *)
Theorem schedule_raises_nothing (self : EarliestDeadlineFirstAlgo) (fuel : nat)
    (w : World EV) :
  schedule station_id estimated_departure fuel self w = OutOfFuel ∨
  ∃ sch w', schedule station_id estimated_departure fuel self w = Done sch w'.
Proof.
  destruct (schedule _ _ _ _ _) as [sch w'|e w'|] eqn:Hrun; [right; eauto| |by left].
  unfold schedule, bind, read_active_evs in Hrun.
  by apply for_loop_not_raised in Hrun.
Qed.

(** X2.  Feasibility of the result, for a monotone oracle: if the ceilings
    are not negative and the oracle is monotone and accepts the all-zero
    schedule, then the schedule [schedule] returns is accepted by the oracle,
    also when some searches ended on the clamp and when several EVs share a
    station; with a positive increment it does return. *)
Theorem schedule_feasible_monotone (self : EarliestDeadlineFirstAlgo) (w : World EV) :
  (∀ s, 0 ≤ max_pilot_signal (interface self) s) →
  monotone (interface self) →
  is_feasible (interface self) (zero w) 0 = true →
  (0 < _increment self → ∃ sch w', returns self w sch w') ∧
  ∀ sch w', returns self w sch w' → is_feasible (interface self) sch 0 = true.
Proof.
  intros Hmps Hmono Hzero. split; [apply schedule_total|].
  intros sch w' [fuel Hrun]. unfold schedule, bind, read_active_evs in Hrun.
  enough (is_feasible (interface self) sch 0 = true ∧
          ∀ s, s ∈ map station_id (active_evs w) → ∃ r, sch !! s = Some [r] ∧ 0 ≤ r)
    as [? _]; [done|].
  eapply (for_loop_induction station_id self
            (λ sch, is_feasible (interface self) sch 0 = true ∧
                    ∀ s, s ∈ map station_id (active_evs w) →
                      ∃ r, sch !! s = Some [r] ∧ 0 ≤ r)); [| |exact Hrun].
  - intros ev s k s' Hev [Hfeas Hentries] [Hall Hend].
    assert (0 ≤ max_pilot_signal (interface self) (station_id ev)
                - Z.of_nat k * _increment self) as Hge.
    { destruct k as [|k]; [specialize (Hmps (station_id ev)); lia|].
      destruct (Hall k ltac:(lia)) as [_ Hge]. lia. }
    destruct (Hentries _ (order_station w ev Hev)) as (r0 & Hr0 & Hr0ge).
    assert (∀ x, 0 ≤ x → ∀ t, t ∈ map station_id (active_evs w) →
              ∃ r, <[station_id ev := [x]]> s !! t = Some [r] ∧ 0 ≤ r) as Hins.
    { intros x Hx t Ht. destruct (decide (station_id ev = t)) as [<-|Hne].
      - rewrite lookup_insert_eq. eauto.
      - rewrite lookup_insert_ne by done. by apply Hentries. }
    destruct Hend as [[Hacc ->]|(_ & _ & ->)].
    + split; [done|by apply Hins].
    + split; [|by apply Hins].
      apply (Hmono s (station_id ev) r0 0); [lia|]. by rewrite (insert_id _ _ _ Hr0).
  - split; [done|]. intros s Hs. exists 0.
    by rewrite init_schedule_lookup, decide_True.
Qed.

(** The loop keeps a schedule feasible when no station is visited twice and
    the stations still to visit hold 0. *)
Lemma for_loop_feasible_distinct (self : EarliestDeadlineFirstAlgo) (fuel : nat)
    (evs : list EV) (sch : Schedule) (w : World EV) (sch' : Schedule) (w' : World EV) :
  NoDup (map station_id evs) →
  (∀ ev, ev ∈ evs → sch !! station_id ev = Some [0]) →
  is_feasible (interface self) sch 0 = true →
  for_loop station_id fuel self evs sch w = Done sch' w' →
  is_feasible (interface self) sch' 0 = true.
Proof.
  revert sch w. induction evs as [|ev evs IH]; intros sch w Hnd Hzero Hfeas; simpl.
  - by intros [= <- <-].
  - unfold bind. destruct (loop_body _ _ _ _ _ _) as [sch1 w1| |] eqn:Hbody; [|done|done].
    simpl in Hnd. apply NoDup_cons in Hnd as [Hev Hnd].
    apply loop_body_spec in Hbody as (k & _ & _ & _ & _ & Hend).
    apply IH; [done| |].
    + intros ev' Hev'.
      assert (station_id ev ≠ station_id ev') as Hne.
      { intros Heq. apply Hev. rewrite Heq. apply list_elem_of_fmap. eauto. }
      destruct Hend as [[_ ->]|(_ & _ & ->)];
        (rewrite lookup_insert_ne by done; apply Hzero; by right).
    + destruct Hend as [[Hacc ->]|(_ & _ & ->)]; [done|].
      rewrite insert_id; [done|]. apply Hzero. by left.
Qed.

(** X3.  Feasibility of the result, for distinct stations: if no two EVs of
    the list are plugged at the same station and the oracle accepts the
    all-zero schedule, the schedule [schedule] returns is accepted by the
    oracle, for any oracle (monotone or not) and any ceilings; with a positive
    increment it does return. *)
Theorem schedule_feasible_distinct_stations (self : EarliestDeadlineFirstAlgo)
    (w : World EV) :
  NoDup (map station_id (active_evs w)) →
  is_feasible (interface self) (zero w) 0 = true →
  (0 < _increment self → ∃ sch w', returns self w sch w') ∧
  ∀ sch w', returns self w sch w' → is_feasible (interface self) sch 0 = true.
Proof.
  intros Hnd Hzero. split; [apply schedule_total|].
  intros sch w' [fuel Hrun]. unfold schedule, bind, read_active_evs in Hrun.
  eapply for_loop_feasible_distinct; [| |exact Hzero|exact Hrun].
  - unfold sorted_evs. by rewrite (sorted_perm estimated_departure (active_evs w)).
  - intros ev Hev. rewrite init_schedule_lookup, decide_True; [done|].
    by apply order_station.
Qed.

(** The partial schedules of an uncongested run: every station holds 0 or
    its ceiling. *)
Lemma for_loop_uncongested (self : EarliestDeadlineFirstAlgo) (full : Schedule)
    (fuel : nat) (evs : list EV) (sch : Schedule) (w : World EV) :
  let m := max_pilot_signal (interface self) in
  (∀ s, 0 ≤ m s) →
  monotone (interface self) →
  is_feasible (interface self) full 0 = true →
  (∀ s, (full !! s = None ∧ sch !! s = None) ∨
        (full !! s = Some [m s] ∧ (sch !! s = Some [0] ∨ sch !! s = Some [m s]))) →
  (∀ ev, ev ∈ evs → full !! station_id ev = Some [m (station_id ev)]) →
  ∃ sch' w',
    for_loop station_id (S fuel) self evs sch w = Done sch' w' ∧
    (∀ ev, ev ∈ evs → sch' !! station_id ev = Some [m (station_id ev)]) ∧
    (∀ s, s ∉ map station_id evs → sch' !! s = sch !! s) ∧
    ∃ cs, calls w' = calls w ++ cs ∧ length (oracle_calls cs) = length evs.
Proof.
  intros m Hmps Hmono Hfull. revert sch w.
  induction evs as [|ev evs IH]; intros sch w Hsch Hevs.
  - exists sch, w. split; [done|]. split; [by intros ev Hev; apply elem_of_nil in Hev|].
    split; [done|]. exists []. by rewrite app_nil_r.
  - set (s := station_id ev).
    assert (∀ t, (full !! t = None ∧ <[s := [m s]]> sch !! t = None) ∨
                 (full !! t = Some [m t] ∧
                  (<[s := [m s]]> sch !! t = Some [0] ∨ <[s := [m s]]> sch !! t = Some [m t])))
      as Hsch1.
    { intros t. destruct (decide (s = t)) as [<-|Hne].
      - right. rewrite lookup_insert_eq. split; [apply Hevs; by left|by right].
      - rewrite lookup_insert_ne by done. apply Hsch. }
    assert (is_feasible (interface self) (<[s := [m s]]> sch) 0 = true) as Hacc.
    { apply (monotone_pointwise self full); [done| |done].
      intros t. destruct (Hsch1 t) as [[? ?]|[Hft [Hz|Hc]]]; [by left| |].
      - right. exists (m t), 0. specialize (Hmps t). repeat split; try done; lia.
      - right. exists (m t), (m t). specialize (Hmps t). repeat split; try done; lia. }
    destruct (IH (<[s := [m s]]> sch)
                (log (CallIsFeasible (<[s := [m s]]> sch) 0)
                   (log (CallMaxPilotSignal s) w)) Hsch1)
      as (sch' & w' & Hrun & Hceil & Hframe & cs & Hcs & Hlen).
    { intros ev' Hev'. apply Hevs. by right. }
    exists sch', w'. split; [|split; [|split]].
    + cbn [for_loop]. unfold bind.
      rewrite (loop_body_first_accepted station_id self fuel ev sch w Hacc). exact Hrun.
    + intros ev' Hev'. apply elem_of_cons in Hev' as [->|Hev']; [|by apply Hceil].
      destruct (decide (s ∈ map station_id evs)) as [Hin|Hnin].
      * apply list_elem_of_fmap in Hin as (ev' & Heq & Hev'). fold s. rewrite Heq.
        by apply Hceil.
      * fold s. rewrite (Hframe s Hnin). by rewrite lookup_insert_eq.
    + intros t Ht. simpl in Ht. apply not_elem_of_cons in Ht as [Hne Ht].
      rewrite (Hframe t Ht). by rewrite lookup_insert_ne.
    + eexists. split.
      * rewrite Hcs. simpl. rewrite <- !app_assoc. done.
      * rewrite !oracle_calls_app. simpl. rewrite Hlen. done.
Qed.

(** X4.  The uncongested case: if the ceilings are not negative and the
    oracle is monotone and accepts the schedule in which every station draws
    its ceiling, then [schedule] returns that schedule after exactly one
    oracle call per EV, whatever the increment (positive or not). *)
Theorem schedule_uncongested (self : EarliestDeadlineFirstAlgo) (w : World EV) :
  (∀ s, 0 ≤ max_pilot_signal (interface self) s) →
  monotone (interface self) →
  is_feasible (interface self) (ceiling_schedule station_id self (active_evs w)) 0 = true →
  ∃ w' cs,
    returns self w (ceiling_schedule station_id self (active_evs w)) w' ∧
    calls w' = calls w ++ cs ∧
    length (oracle_calls cs) = length (active_evs w).
Proof.
  intros Hmps Hmono Hfull.
  destruct (for_loop_uncongested self (ceiling_schedule station_id self (active_evs w))
              O (order w) (zero w) w Hmps Hmono Hfull)
    as (sch & w' & Hrun & Hceil & Hframe & cs & Hcs & Hlen).
  - intros s. rewrite ceiling_schedule_lookup, init_schedule_lookup.
    case_decide; [right; split; [done|by left]|by left].
  - intros ev Hev. rewrite ceiling_schedule_lookup, decide_True; [done|].
    by apply order_station.
  - exists w', cs.
    assert (sch = ceiling_schedule station_id self (active_evs w)) as <-.
    { apply map_eq. intros s. rewrite ceiling_schedule_lookup.
      destruct (decide (s ∈ map station_id (active_evs w))) as [Hin|Hnin].
      - apply (sorted_evs_stations station_id estimated_departure) in Hin.
        apply list_elem_of_fmap in Hin as (ev & -> & Hev). by apply Hceil.
      - rewrite Hframe, init_schedule_lookup, decide_False; [done|done|].
        by rewrite (sorted_evs_stations station_id estimated_departure). }
    split; [by exists 1%nat|]. split; [done|].
    rewrite Hlen. unfold sorted_evs.
    by rewrite (sorted_perm estimated_departure (active_evs w)).
Qed.



(** The calls of the loop are well formed. *)
Lemma for_loop_well_formed (self : EarliestDeadlineFirstAlgo) (D : gset string)
    (fuel : nat) (evs : list EV) (sch : Schedule) (w : World EV)
    (sch' : Schedule) (w' : World EV) :
  (∀ ev, ev ∈ evs → station_id ev ∈ D) →
  dom sch = D → (∀ s l, sch !! s = Some l → length l = 1%nat) →
  for_loop station_id fuel self evs sch w = Done sch' w' →
  ∃ cs, calls w' = calls w ++ cs ∧ Forall (well_formed_call D) cs.
Proof.
  revert sch w. induction evs as [|ev evs IH]; intros sch w Hevs Hdom Hlen; simpl.
  - intros [= <- <-]. exists []. by rewrite app_nil_r.
  - unfold bind. destruct (loop_body _ _ _ _ _ _) as [sch1 w1| |] eqn:Hbody; [|done|done].
    apply loop_body_spec in Hbody as (k & _ & _ & Hcalls & Hend).
    assert (station_id ev ∈ D) as Hev by (apply Hevs; by left).
    assert (∀ x, dom (<[station_id ev := [x]]> sch) = D ∧
                 ∀ s l, <[station_id ev := [x]]> sch !! s = Some l → length l = 1%nat)
      as Hins.
    { intros x. split.
      - rewrite dom_insert_L, Hdom. apply subseteq_union_1_L.
        by apply singleton_subseteq_l.
      - intros s l. destruct (decide (station_id ev = s)) as [<-|Hne].
        + rewrite lookup_insert_eq. by intros [= <-].
        + rewrite lookup_insert_ne by done. apply Hlen. }
    apply search_end_rate in Hend as (x & -> & _).
    intros Hrest. destruct (Hins x) as [Hdom1 Hlen1].
    apply IH in Hrest as (cs & Hcs & Hwf); [|intros; apply Hevs; by right|done|done].
    eexists. split; [rewrite Hcs, Hcalls, <- app_assoc; done|].
    apply Forall_app. split; [|done].
    constructor; [done|]. apply Forall_fmap, Forall_forall. intros r _. simpl.
    split; [done|]. apply Hins.
Qed.

(** X6.  Every interface call of [schedule] is well formed: a ceiling is
    asked for a station of the list only, and every schedule submitted to the
    oracle is submitted for offset 0, has exactly the station ids of
    [active_evs] as keys and one rate under each; no partly built or
    malformed schedule reaches the oracle. *)
Theorem schedule_calls_well_formed (self : EarliestDeadlineFirstAlgo)
    (w : World EV) (sch : Schedule) (w' : World EV) :
  returns self w sch w' →
  ∃ cs, calls w' = calls w ++ cs ∧ Forall (well_formed_call (stations w)) cs.
Proof.
  intros [fuel Hrun]. unfold schedule, bind, read_active_evs in Hrun.
  eapply for_loop_well_formed; [| | |exact Hrun].
  - intros ev Hev. apply elem_of_list_to_set. by apply order_station.
  - apply init_schedule_dom.
  - intros s l. rewrite init_schedule_lookup. case_decide; [|done]. by intros [= <-].
Qed.

(** X7.  The order of the list matters for ties only: if two lists hold the
    same EVs and no two of them have the same estimated departure, the two
    calls return the same schedule. *)
Theorem schedule_permutation_invariant (self : EarliestDeadlineFirstAlgo)
    (w1 w2 : World EV) (sch : Schedule) (w1' : World EV) :
  Permutation (active_evs w1) (active_evs w2) →
  NoDup (map estimated_departure (active_evs w1)) →
  returns self w1 sch w1' →
  ∃ w2', returns self w2 sch w2'.
Proof.
  intros Hperm Hnd [fuel Hrun]. unfold schedule, bind, read_active_evs in Hrun.
  assert (zero w1 = zero w2) as Hzero.
  { apply map_eq. intros s. rewrite !init_schedule_lookup.
    destruct (decide (s ∈ map station_id (active_evs w1))) as [Hin|Hnin].
    - rewrite decide_True; [done|]. by rewrite <- Hperm.
    - rewrite decide_False; [done|]. by rewrite <- Hperm. }
  assert (order w1 = order w2) as Hord by (by apply sorted_permutation).
  rewrite Hzero, Hord in Hrun.
  destruct (for_loop_any_world station_id self fuel _ _ _ w1 w2 _ _ eq_refl Hrun)
    as (w2' & Hrun2).
  exists w2', fuel. done.
Qed.

(** X8.  When the increment is positive and greater than the ceiling of the
    station, the search is a single test: the oracle is called once, on the
    ceiling, and the EV gets its ceiling if that was accepted and 0 if not.
    A negative ceiling that the oracle accepts is therefore committed as it
    is: the clamp acts after a decrement only. *)
Theorem single_test_above_ceiling (self : EarliestDeadlineFirstAlgo)
    (w : World EV) (sch : Schedule) (w' : World EV) (it : iteration) :
  let s := station_id (it_ev it) in
  let m := max_pilot_signal (interface self) s in
  iteration_of self w sch w' it →
  0 < _increment self → m < _increment self →
  oracle_calls (calls_of it) = [<[s := [m]]> (sch_before it)] ∧
  sch_after it
  = <[s := [if is_feasible (interface self) (<[s := [m]]> (sch_before it)) 0
            then m else 0]]> (sch_before it).
Proof.
  intros s m Hit Hinc Hm.
  destruct (iteration_spec _ _ _ _ _ _ _ Hit) as (k & Hcalls & Hend).
  fold s m in Hcalls, Hend.
  destruct k as [|k].
  - split; [by rewrite Hcalls|]. by apply search_end_single.
  - destruct Hend as [Hall _]. destruct (Hall O ltac:(lia)) as [_ Hge]. lia.
Qed.

(** X9.  Precision of the linear search: if, in the partial schedule of an
    iteration, the oracle accepts for the station exactly the rates up to a
    threshold [c >= 0], then with a positive increment and a ceiling
    [m >= 0] the committed rate [r] does not exceed the best rate
    [min m c] and falls short of it by less than one increment. *)
Theorem search_within_one_increment (self : EarliestDeadlineFirstAlgo)
    (w : World EV) (sch : Schedule) (w' : World EV) (it : iteration) (c : Z) :
  let s := station_id (it_ev it) in
  let m := max_pilot_signal (interface self) s in
  iteration_of self w sch w' it →
  0 < _increment self → 0 ≤ m → 0 ≤ c →
  (∀ x, is_feasible (interface self) (<[s := [x]]> (sch_before it)) 0 = (x <=? c)) →
  ∃ r, sch_after it = <[s := [r]]> (sch_before it) ∧
       0 ≤ r ≤ Z.min m c ∧ Z.min m c - r < _increment self.
Proof.
  intros s m Hit Hinc Hm Hc Horacle.
  destruct (iteration_spec _ _ _ _ _ _ _ Hit) as (k & _ & Hall & Hend).
  fold s m in Hall, Hend.
  assert (∀ i : nat, (i < k)%nat → c < m - Z.of_nat i * _increment self) as Hrej.
  { intros i Hi. destruct (Hall i Hi) as [Hf _]. rewrite Horacle in Hf.
    by apply Z.leb_gt in Hf. }
  assert (0 ≤ m - Z.of_nat k * _increment self) as Hlast.
  { destruct k as [|k]; [lia|]. destruct (Hall k ltac:(lia)) as [_ Hge]. lia. }
  destruct Hend as [[Hacc ->]|(Hlastrej & Hneg & ->)]; rewrite Horacle in *.
  - apply Z.leb_le in Hacc. eexists. split; [done|].
    destruct k as [|k]; [lia|]. specialize (Hrej k ltac:(lia)). lia.
  - apply Z.leb_gt in Hlastrej. exists 0. split; [done|]. lia.
Qed.



(** X12.  Near-optimality for a monotone oracle: with a positive increment,
    if the oracle is monotone and accepts some rate [x] within [0, ceiling]
    for the station in the partial schedule of an iteration, the committed
    rate falls short of [x] by less than one increment. *)
Theorem search_near_any_feasible_rate (self : EarliestDeadlineFirstAlgo)
    (w : World EV) (sch : Schedule) (w' : World EV) (it : iteration) (x : Z) :
  let s := station_id (it_ev it) in
  let m := max_pilot_signal (interface self) s in
  iteration_of self w sch w' it →
  0 < _increment self →
  monotone (interface self) →
  0 ≤ x ≤ m →
  is_feasible (interface self) (<[s := [x]]> (sch_before it)) 0 = true →
  ∃ r, sch_after it = <[s := [r]]> (sch_before it) ∧
       0 ≤ r ≤ m ∧ x - r < _increment self.
Proof.
  intros s m Hit Hinc Hmono Hx Hacc.
  destruct (iteration_spec _ _ _ _ _ _ _ Hit) as (k & _ & Hall & Hend).
  fold s m in Hall, Hend.
  assert (∀ i : nat, (i ≤ k)%nat → 0 ≤ m - Z.of_nat i * _increment self) as Hge.
  { intros [|i] Hi; [lia|]. destruct (Hall i ltac:(lia)) as [_ Hge]. lia. }
  assert (∀ y, 0 ≤ y →
            is_feasible (interface self) (<[s := [y]]> (sch_before it)) 0 = false →
            x < y) as Habove.
  { intros y Hy Hrej. destruct (decide (x < y)) as [|Hle]; [done|].
    rewrite (Hmono (sch_before it) s x y) in Hrej; [done|lia|done]. }
  destruct Hend as [[_ ->]|(Hlastrej & Hneg & ->)].
  - eexists. split; [done|]. pose proof (Hge k ltac:(lia)) as Hk.
    destruct k as [|k]; [lia|].
    destruct (Hall k ltac:(lia)) as [Hrej _].
    apply Habove in Hrej; [|apply Hge; lia]. lia.
  - exists 0. split; [done|].
    apply Habove in Hlastrej; [|apply Hge; lia]. lia.
Qed.
End Extras.

(** ** The further properties at work *)

Section ExtrasDemo.
Import Demo.

Local Ltac runs fuel := exists fuel; vm_compute; reflexivity.

Lemma shared_limit_ceilings (s : string) : 0 ≤ max_pilot_signal shared_limit s.
Proof. simpl. destruct (String.eqb s "A"); lia. Defined.

Lemma schedule_feasible_monotone_witness :
  ∃ sch w', run shared_limit 8 3 [ev_A; ev_B] = Done sch w' ∧
    is_feasible shared_limit sch 0 = true.
Proof.
  destruct (schedule_feasible_monotone station_id estimated_departure
              (__init__ shared_limit 8) (world [ev_A; ev_B])) as [_ Hfeas].
  - apply shared_limit_ceilings.
  - apply shared_limit_monotone.
  - vm_compute. reflexivity.
  - eexists _, _. split; [vm_compute; reflexivity|].
    eapply Hfeas. runs 3%nat.
Defined.

Lemma schedule_feasible_distinct_stations_witness :
  ∃ sch w', run shared_limit 8 5 [ev_C; ev_A; ev_B] = Done sch w' ∧
    is_feasible shared_limit sch 0 = true.
Proof.
  destruct (schedule_feasible_distinct_stations station_id estimated_departure
              (__init__ shared_limit 8) (world [ev_C; ev_A; ev_B])) as [_ Hfeas].
  - refine (bool_decide_unpack _ _). vm_compute. exact I.
  - vm_compute. reflexivity.
  - eexists _, _. split; [vm_compute; reflexivity|].
    eapply Hfeas. runs 5%nat.
Defined.

Lemma schedule_uncongested_witness :
  ∃ w' cs,
    returns station_id estimated_departure (__init__ shared_limit 0) (world [ev_C; ev_B])
      {["B" := [16]; "C" := [16]]} w' ∧
    calls w' = cs ∧ length (oracle_calls cs) = 2%nat.
Proof.
  destruct (schedule_uncongested station_id estimated_departure
              (__init__ shared_limit 0) (world [ev_C; ev_B]))
    as (w' & cs & Hret & Hcalls & Hlen).
  - apply shared_limit_ceilings.
  - apply shared_limit_monotone.
  - vm_compute. reflexivity.
  - exists w', cs. split; [|split; [exact Hcalls|exact Hlen]].
    replace ({["B" := [16]; "C" := [16]]} : Schedule)
      with (ceiling_schedule station_id (__init__ shared_limit 0)
              (active_evs (world [ev_C; ev_B]))); [exact Hret|].
    vm_compute. reflexivity.
Defined.


Lemma schedule_calls_well_formed_witness :
  ∃ cs, calls (w_after second_iteration) = cs ∧
    Forall (well_formed_call (list_to_set ["A"; "B"])) cs.
Proof.
  destruct (schedule_calls_well_formed station_id estimated_departure
              (__init__ shared_limit 8) (world [ev_A; ev_B])
              {["A" := [24]; "B" := [16]]} (w_after second_iteration))
    as (cs & Hcs & Hwf).
  - runs 3%nat.
  - exists cs. split; [exact Hcs|exact Hwf].
Defined.

Lemma schedule_permutation_invariant_witness :
  ∃ w2', returns station_id estimated_departure (__init__ shared_limit 8)
           (later_world [ev_B'; ev_A']) {["A" := [24]; "B" := [16]]} w2'.
Proof.
  apply (schedule_permutation_invariant station_id estimated_departure
           (__init__ shared_limit 8) (world [ev_A'; ev_B']) (later_world [ev_B'; ev_A'])
           {["A" := [24]; "B" := [16]]}
           {| active_evs := [ev_A'; ev_B']; calls := calls (w_after second_iteration) |}).
  - apply perm_swap.
  - refine (bool_decide_unpack _ _). vm_compute. exact I.
  - runs 3%nat.
Defined.

Lemma single_test_above_ceiling_witness :
  (0 < 2 ∧ 1 < 2) ∧
  oracle_calls (calls_of (single_iteration 1 0)) = [{["A" := [1]]}] ∧
  sch_after (single_iteration 1 0) = {["A" := [0]]}.
Proof.
  split; [lia|].
  destruct (single_test_above_ceiling station_id estimated_departure
              (__init__ (only_zero 1) 2) (world [ev_A]) {["A" := [0]]}
              (w_after (single_iteration 1 0)) (single_iteration 1 0))
    as [Hcalls Hafter].
  - exists 1%nat. vm_compute. auto.
  - simpl. lia.
  - simpl. lia.
  - split; [exact Hcalls|exact Hafter].
Defined.

Lemma shared_limit_threshold (x : Z) :
  is_feasible shared_limit (<["A" := [x]]> (sch_before second_iteration)) 0 = (x <=? 24).
Proof.
  simpl. rewrite total_rate_insert.
  replace (total_rate (delete "A" {["A" := [0]; "B" := [16]]})) with 16
    by (vm_compute; reflexivity).
  destruct (Z.leb_spec (x + 16) 40), (Z.leb_spec x 24); try done; lia.
Defined.

Lemma search_within_one_increment_witness :
  ∃ r, sch_after second_iteration = <["A" := [r]]> (sch_before second_iteration) ∧
       0 ≤ r ≤ 24 ∧ 24 - r < 8.
Proof.
  destruct (search_within_one_increment station_id estimated_departure
              (__init__ shared_limit 8) (world [ev_A; ev_B])
              {["A" := [24]; "B" := [16]]} (w_after second_iteration) second_iteration 24)
    as (r & Hafter & Hr & Hnear).
  - exists 3%nat. vm_compute. auto.
  - simpl. lia.
  - simpl. lia.
  - lia.
  - apply shared_limit_threshold.
  - exists r. split; [exact Hafter|]. split; [exact Hr|exact Hnear].
Defined.



Lemma search_near_any_feasible_rate_witness :
  ∃ r, sch_after second_iteration = <["A" := [r]]> (sch_before second_iteration) ∧
       0 ≤ r ≤ 32 ∧ 20 - r < 8.
Proof.
  destruct (search_near_any_feasible_rate station_id estimated_departure
              (__init__ shared_limit 8) (world [ev_A; ev_B])
              {["A" := [24]; "B" := [16]]} (w_after second_iteration) second_iteration 20)
    as (r & Hafter & Hr & Hnear).
  - exists 3%nat. vm_compute. auto.
  - simpl. lia.
  - apply shared_limit_monotone.
  - simpl. lia.
  - vm_compute. reflexivity.
  - exists r. split; [exact Hafter|]. split; [exact Hr|exact Hnear].
Defined.
End ExtrasDemo.
